(** * VaultHandler (src/apps/vault.py): a shallow embedding and its properties

    The Python class [VaultHandler] logs in to a Vault cluster with AppRole
    credentials, reads key/value secrets from one or more paths, merges them
    and optionally writes them into [os.environ].

    Modelling decisions.
    - Python dictionaries are insertion-ordered: a [dict] is an association
      list in insertion order; [dict_setitem] replaces in place or appends.
    - [os.environ] is a finite map from names to strings ([gmap string string]);
      it is the only state that persists.  Assignments go through
      [environ_setitem], which raises [TypeError] on a value that is not a
      [str] and [ValueError] ([EnvValueError] below) on a name or value that
      POSIX [putenv] rejects.
    - Exceptions are values of [exn]; an operation is a function from a
      [World] to a [World] and a [result], so that whatever was written
      before an exception stays written.
    - Everything outside the file is a field of [Runtime]: the module-level
      name [logger] (its binding at line 13 is commented out, so as the file
      stands every use raises [NameError]; a host that binds the name makes
      the calls log), [sys.argv], [json.dumps], [str.upper] and the two
      [hvac] calls.
    - The backing store answers as a function of the client and the path:
      reading a path twice gives the same bundle.
    - Calls to the backing store, log records and prints are recorded in the
      [trace] of the world, most recent first. *)

From stdpp Require Import gmap strings list fin_maps pretty.
From Stdlib Require Import ZArith Ascii.

(** ** Python values *)

(** The JSON-shaped values that Vault hands back and that configuration
    entries hold. *)
#[local] Unset Elimination Schemes.
Inductive pyval :=
| VStr (s : string)
| VInt (z : Z)
| VBool (b : bool)
| VNone
| VList (l : list pyval)
| VDict (d : list (string * pyval)).
#[local] Set Elimination Schemes.

Definition dict := list (string * pyval).

Definition keys (d : dict) : list string := d.*1.

Fixpoint dict_get (k : string) (d : dict) : option pyval :=
  match d with
  | [] => None
  | (k', v) :: d' => if decide (k = k') then Some v else dict_get k d'
  end.

(** [d[k] = v]: an existing key keeps its position, a new key goes last. *)
Fixpoint dict_setitem (k : string) (v : pyval) (d : dict) : dict :=
  match d with
  | [] => [(k, v)]
  | (k', v') :: d' =>
      if decide (k = k') then (k, v) :: d' else (k', v') :: dict_setitem k v d'
  end.

(** [d.update(other)] *)
Definition dict_update (d other : dict) : dict :=
  foldl (fun acc kv => dict_setitem kv.1 kv.2 acc) d other.

(** [data.keys() & results.keys()].  A Python set has no specified order;
    the keys are listed here in the order of [data], and the theorems below
    only speak about membership. *)
Definition keys_inter (data results : dict) : list string :=
  filter (fun k => k ∈ keys results) (keys data).

(** Truthiness of a set or list: non-empty. *)
Definition nonempty {A} (l : list A) : bool :=
  match l with [] => false | _ => true end.

(** Truthiness of a token ([None] and the empty string are falsy). *)
Definition truthy (t : option string) : bool :=
  match t with
  | Some s => negb (String.eqb s "")
  | None => false
  end.

(** [a or b] on optional strings. *)
Definition py_or (a b : option string) : option string :=
  if truthy a then a else b.

(** [isinstance(path, list)]: one path or a list of paths. *)
Definition paths_of (path : pyval) : list pyval :=
  match path with
  | VList l => l
  | _ => [path]
  end.

(** ** Strings *)

Fixpoint str_has (c : ascii) (s : string) : bool :=
  match s with
  | EmptyString => false
  | String c' s' => Ascii.eqb c c' || str_has c s'
  end.

(** [s.split(sep)] for a one-character separator: never empty. *)
Fixpoint str_split (sep : ascii) (s : string) : list string :=
  match s with
  | EmptyString => [EmptyString]
  | String c s' =>
      if Ascii.eqb c sep then EmptyString :: str_split sep s'
      else match str_split sep s' with
           | x :: xs => String c x :: xs
           | [] => [String c EmptyString]
           end
  end.

(** [l[-1]] on the result of a split. *)
Definition last_item (l : list string) : string := List.last l EmptyString.

(** [s.replace(".py", "")]: every occurrence, scanning from the left,
    without looking again at what the removal joins. *)
Fixpoint str_remove_dot_py (s : string) : string :=
  match s with
  | EmptyString => EmptyString
  | String c s' =>
      match c, s' with
      | "."%char, String "p"%char (String "y"%char r) => str_remove_dot_py r
      | _, _ => String c (str_remove_dot_py s')
      end
  end.

(** ** Exceptions, events and the world *)

Inductive message :=
| MsgCredentialsMissing
    (* "role_id and/or secret_id not present as environment variable" *)
| MsgCannotInstantiate
    (* "cannot instantiate hvac.Client class while using: approle.login" *)
| MsgVaultPathDuplicated (key : string) (path : pyval) (secret : string)
    (* "VAULT_PATH DUPLICATED environment in config: key => path => secret" *)
| MsgVaultPathCannotRetrieve (key : string) (path : pyval)
    (* "VAULT_PATH cannot retrieve secret in config: key => path" *)
| MsgDuplicated (key : string)
    (* "DUPLICATED environment in config: key" *)
| MsgPathCannotBeRetrieved (path : string)
    (* "Path ... cannot be retrieved from Vault. Check settings!" *)
| MsgNoConfigPath
    (* "Not able to determine CONFIG PATHS in DE environment (VAULT)" *).

Inductive exn :=
| NameError (name : string)         (* name '...' is not defined *)
| AttributeError (attr : string)    (* 'NoneType' object has no attribute *)
| BareRaise                         (* [raise] with nothing to re-raise:
                                       RuntimeError, unless the caller is
                                       itself handling an exception *)
| TypeError                         (* str expected *)
| EnvValueError                     (* illegal environment variable name,
                                       embedded null byte *)
| IndexError                        (* list index out of range *)
| KeyError (key : string)
| ValueError (m : message)
| Exception (m : message)
| HvacError (what : string)         (* whatever the hvac client raises *).

Inductive verify_policy :=
| VerifyBool (b : bool)
| VerifyCA (bundle : string).

Inductive logmsg :=
| LogDeprecatedGetSecret
| LogDeprecatedGetConfigPath
| LogCredentialsMissing
| LogUnableToFetchToken
| LogCannotInstantiate
| LogDuplicateKeysFetched (dup : list string).

Inductive event :=
| EvLogin (url : option string) (verify : verify_policy)
          (role_id secret_id : option string)
| EvRead (path : pyval)
| EvLog (m : logmsg)
| EvPrintAuthFailed (e : exn)
| EvPrintDuplicated (key : string) (have : string) (want : pyval).

Record World := mkWorld {
  environ : gmap string string;
  trace : list event
}.

Inductive result (A : Type) :=
| Raise (e : exn)
| Return (a : A).
Arguments Raise {A} e.
Arguments Return {A} a.

Definition M (A : Type) : Type := World -> World * result A.

Definition ret {A} (a : A) : M A := fun w => (w, Return a).

Definition raise {A} (e : exn) : M A := fun w => (w, Raise e).

Definition bind {A B} (m : M A) (k : A -> M B) : M B :=
  fun w =>
    match m w with
    | (w', Return a) => k a w'
    | (w', Raise e) => (w', Raise e)
    end.

Notation "'do' x <- m ; k" := (bind m (fun x => k))
  (at level 10, x name, m at level 100, k at level 200).
Notation "m ;; k" := (bind m (fun _ => k))
  (at level 100, k at level 200, right associativity).

(** [try: body except TypeError: handler] *)
Definition except_TypeError {A} (body handler : M A) : M A :=
  fun w =>
    match body w with
    | (w', Raise TypeError) => handler w'
    | r => r
    end.

(** [for x in l: f(x)] *)
Fixpoint for_each {A} (f : A -> M unit) (l : list A) : M unit :=
  match l with
  | [] => ret tt
  | x :: l' => f x ;; for_each f l'
  end.

Definition emit (e : event) : M unit :=
  fun w => (mkWorld (environ w) (e :: trace w), Return tt).

(** ** What the module takes from outside *)

Inductive login_response :=
| LoginRaises (e : exn)
    (* the login call raised, or the response has no ["auth"]["client_token"]:
       both surface where the response is indexed *)
| LoginToken (token : option string)
    (* [response["auth"]["client_token"]], [None] for null *).

Inductive read_response :=
| ReadRaises (e : exn)
    (* the read raised, or [response["data"]["data"]] is not a mapping *)
| ReadData (data : dict).

Record Client := mkClient {
  client_url : option string;
  client_verify : verify_policy;
  client_token : option string
}.

Record Runtime := mkRuntime {
  logger_bound : bool;
  sys_argv : list string;
  json_dumps : pyval -> string;
  str_upper : string -> string;
  hvac_login :
    option string -> verify_policy -> option string -> option string ->
    login_response;
  hvac_read : Client -> pyval -> read_response
}.

(** [logger.error(...)], [logger.warning(...)]: the name is looked up first. *)
Definition logger_call (rt : Runtime) (m : logmsg) : M unit :=
  if logger_bound rt then emit (EvLog m) else raise (NameError "logger").

(** ** os.environ *)

Definition environ_get (k : string) : M (option string) :=
  fun w => (w, Return (environ w !! k)).

(** [k in os.environ] *)
Definition environ_contains (k : string) : M bool :=
  fun w => (w, Return (bool_decide (is_Some (environ w !! k)))).

Definition valid_env_name (k : string) : bool :=
  negb (String.eqb k "") && negb (str_has "="%char k)
  && negb (str_has Ascii.zero k).

Definition valid_env_value (v : string) : bool :=
  negb (str_has Ascii.zero v).

(** [os.environ[k] = v]: the value is encoded first ([TypeError] unless it
    is a [str]), then [putenv] checks the name and the value.
    [EnvValueError] stands for whatever [putenv] raises on a name or value
    it rejects ([ValueError], or [OSError] for the empty name): none of
    them is a [TypeError], which is all the code distinguishes. *)
Definition environ_setitem (k : string) (v : pyval) : M unit :=
  fun w =>
    match v with
    | VStr s =>
        if valid_env_name k && valid_env_value s
        then (mkWorld (<[k := s]> (environ w)) (trace w), Return tt)
        else (w, Raise EnvValueError)
    | _ => (w, Raise TypeError)
    end.

(** ** class VaultHandler *)

Record VaultHandler := mkVaultHandler {
  role_id : option string;
  secret_id : option string;
  url : option string
}.

(** [__init__] (lines 32-34) *)
Definition init (url0 role_id0 secret_id0 : option string) : M VaultHandler :=
  do r <- environ_get "role_id";
  do s <- environ_get "secret_id";
  do u <- environ_get "VAULT_ADDR";
  ret (mkVaultHandler (py_or role_id0 r) (py_or secret_id0 s) (py_or url0 u)).

(** The login exchange itself, common to both login helpers. *)
Definition approle_login_call (rt : Runtime) (self : VaultHandler)
    (verify : verify_policy) : M (option string) :=
  emit (EvLogin (url self) verify (role_id self) (secret_id self)) ;;
  match hvac_login rt (url self) verify (role_id self) (secret_id self) with
  | LoginRaises e => raise e
  | LoginToken t => ret t
  end.

(** [_approle_login] (lines 46-55): the client, or [None] after the log
    call when the token is falsy. *)
Definition _approle_login (rt : Runtime) (self : VaultHandler)
    (verify : verify_policy) : M (option Client) :=
  do t <- approle_login_call rt self verify;
  if truthy t then ret (Some (mkClient (url self) verify t))
  else (logger_call rt LogUnableToFetchToken ;; ret None).

(** [_check_hvac_client_login] (lines 67-74): any exception of the login is
    printed and turned into [None]. *)
Definition _check_hvac_client_login (rt : Runtime) (self : VaultHandler)
    (verify : verify_policy) : M (option Client) :=
  fun w =>
    match approle_login_call rt self verify w with
    | (w', Return t) => (w', Return (Some (mkClient (url self) verify t)))
    | (w', Raise e) => (emit (EvPrintAuthFailed e) ;; ret None) w'
    end.

(** [_check_env_credentials] (line 82) *)
Definition _check_env_credentials : M bool :=
  do r <- environ_get "role_id";
  do s <- environ_get "secret_id";
  ret (bool_decide (is_Some r) && bool_decide (is_Some s)).

(** [client.token] needs a client: both login helpers may return [None]. *)
Definition the_client (client : option Client) : M Client :=
  match client with
  | Some c => ret c
  | None => raise (AttributeError "token")
  end.

(** [client.secrets.kv.v2.read_secret(path=path)["data"]["data"]] *)
Definition read_secret (rt : Runtime) (c : Client) (path : pyval) : M dict :=
  emit (EvRead path) ;;
  match hvac_read rt c path with
  | ReadRaises e => raise e
  | ReadData d => ret d
  end.

(** The loop of [read_path] (lines 152-163). *)
Fixpoint read_path_loop (rt : Runtime) (c : Client) (paths : list pyval)
    (results : dict) : M dict :=
  match paths with
  | [] => ret results
  | path :: paths' =>
      do data <- read_secret rt c path;
      if nonempty (keys_inter data results)
      then (logger_call rt (LogDuplicateKeysFetched (keys_inter data results)) ;;
            raise BareRaise)
      else read_path_loop rt c paths' (dict_update results data)
  end.

(** [read_path] (lines 135-169) *)
Definition read_path (rt : Runtime) (self : VaultHandler) (path : pyval)
    (environ_flag : bool) (verify : verify_policy) : M dict :=
  do ok <- _check_env_credentials;
  (if negb ok
   then (logger_call rt LogCredentialsMissing ;; raise BareRaise)
   else ret tt) ;;
  do client <- _approle_login rt self verify;
  do c <- the_client client;
  (if negb (truthy (client_token c))
   then (logger_call rt LogCannotInstantiate ;; raise BareRaise)
   else ret tt) ;;
  do results <- read_path_loop rt c (paths_of path) [];
  (if environ_flag
   then for_each (fun kv => environ_setitem kv.1 kv.2) results
   else ret tt) ;;
  ret results.

(** What [get_secret] returns: [(True, result_dict)], or [(False,
    {"errors": "duplicated key while dict update duplicated keys: [...]"})]
    with the list of the duplicated keys. *)
Inductive secret_result :=
| SecretOk (result_dict : dict)
| SecretDuplicated (duplicated_keys : list string).

(** The loop of [get_secret] (lines 205-218). *)
Fixpoint get_secret_loop (rt : Runtime) (c : Client)
    (secret_list : list pyval) (result_dict : dict) : M secret_result :=
  match secret_list with
  | [] => ret (SecretOk result_dict)
  | single_path :: rest =>
      do dict_with_secrets <- read_secret rt c single_path;
      if nonempty (keys_inter dict_with_secrets result_dict)
      then ret (SecretDuplicated (keys_inter dict_with_secrets result_dict))
      else get_secret_loop rt c rest (dict_update result_dict dict_with_secrets)
  end.

(** [get_secret] (lines 188-218) *)
Definition get_secret (rt : Runtime) (self : VaultHandler) (path : pyval)
    : M secret_result :=
  logger_call rt LogDeprecatedGetSecret ;;
  do ok <- _check_env_credentials;
  (if negb ok then raise (ValueError MsgCredentialsMissing) else ret tt) ;;
  do client <- _check_hvac_client_login rt self (VerifyBool false);
  do c <- the_client client;
  (if negb (truthy (client_token c))
   then raise (ValueError MsgCannotInstantiate)
   else ret tt) ;;
  get_secret_loop rt c (paths_of path) [].

(** Lines 101-107: one secret of an expanded path. *)
Definition write_secret (key : string) (value : pyval)
    (kv : string * pyval) : M unit :=
  do present <- environ_contains kv.1;
  if negb present then environ_setitem kv.1 kv.2
  else raise (Exception (MsgVaultPathDuplicated key value kv.1)).

(** Lines 99-109: the expansion of an entry whose key starts with
    [VAULT_PATH_]. *)
Definition expand_marker_entry (rt : Runtime) (self : VaultHandler)
    (key : string) (value : pyval) : M unit :=
  do r <- get_secret rt self value;
  match r with
  | SecretOk secrets => for_each (write_secret key value) secrets
  | SecretDuplicated _ =>
      raise (Exception (MsgVaultPathCannotRetrieve key value))
  end.

(** Lines 111-121: the assignment of the entry itself; a value that is not
    a [str] is stored as its JSON text. *)
Definition set_plain_entry (rt : Runtime) (key : string) (value : pyval)
    : M unit :=
  except_TypeError
    (do present <- environ_contains key;
     if negb present then environ_setitem key value
     else
       (do have <- environ_get key;
        emit (EvPrintDuplicated key (default "" have) value) ;;
        raise (Exception (MsgDuplicated key))))
    (environ_setitem key (VStr (json_dumps rt value))).

(** One round of the loop of [_set_environments] (lines 95-121): the
    expansion is not exclusive, the assignment of the entry follows it. *)
Definition set_environment_entry (rt : Runtime) (self : VaultHandler)
    (key : string) (value : pyval) : M unit :=
  (if String.prefix "VAULT_PATH_" key
   then expand_marker_entry rt self key value
   else ret tt) ;;
  set_plain_entry rt key value.

(** [_set_environments] (lines 93-121): the entries in insertion order. *)
Definition _set_environments (rt : Runtime) (self : VaultHandler)
    (env : dict) : M unit :=
  for_each (fun kv => set_environment_entry rt self kv.1 kv.2) env.

(** [sys.argv[0].split("/")[-1].replace(".py", "").upper()] *)
Definition appname (rt : Runtime) (argv0 : string) : string :=
  str_upper rt (str_remove_dot_py (last_item (str_split "/"%char argv0))).

(** [os.environ[k]] for a key that may be absent. *)
Definition environ_getitem (k : string) : M string :=
  do v <- environ_get k;
  match v with
  | Some s => ret s
  | None => raise (KeyError k)
  end.

(** The common tail of both branches of [get_config_path] (lines 233-237
    and 241-245). *)
Definition fetch_config (rt : Runtime) (self : VaultHandler) : M unit :=
  do path <- environ_getitem "DECONFPATH";
  do r <- get_secret rt self (VStr path);
  match r with
  | SecretOk config => _set_environments rt self config
  | SecretDuplicated _ => raise (Exception (MsgPathCannotBeRetrieved path))
  end.

(** [get_config_path] (lines 230-247) *)
Definition get_config_path (rt : Runtime) (self : VaultHandler) : M unit :=
  logger_call rt LogDeprecatedGetConfigPath ;;
  match sys_argv rt with
  | [] => raise IndexError
  | argv0 :: _ =>
      environ_setitem "APPNAME" (VStr (appname rt argv0)) ;;
      do has_path <- environ_contains "DECONFPATH";
      if has_path then fetch_config rt self
      else
        do has_env <- environ_contains "env";
        if has_env then
          do e <- environ_getitem "env";
          do a <- environ_getitem "APPNAME";
          environ_setitem "DECONFPATH"
            (VStr ("dataeng/config/" +:+ str_upper rt e +:+ "/" +:+ a)) ;;
          fetch_config rt self
        else raise (Exception MsgNoConfigPath)
  end.

(** ** Sample runtimes and inputs

    Concrete hosts on which the operations are evaluated. *)

Definition ascii_upper (c : ascii) : ascii :=
  let n := nat_of_ascii c in
  if (97 <=? n)%nat && (n <=? 122)%nat then ascii_of_nat (n - 32) else c.

(** [str.upper] on ASCII text. *)
Fixpoint ascii_str_upper (s : string) : string :=
  match s with
  | EmptyString => EmptyString
  | String c s' => String (ascii_upper c) (ascii_str_upper s')
  end.

(** [json.dumps] on [None], the booleans and the integers; the samples
    hold no other value that is not a [str]. *)
Definition sample_json_dumps (v : pyval) : string :=
  match v with
  | VBool true => "true"
  | VBool false => "false"
  | VInt z => pretty z
  | _ => "null"
  end.

(** A store with four paths; every login yields the token ["tok"]. *)
Definition sample_read (c : Client) (path : pyval) : read_response :=
  match path with
  | VStr "app/db" => ReadData [("DB_USER", VStr "a"); ("DB_PASS", VStr "b")]
  | VStr "app/cache" => ReadData [("CACHE_HOST", VStr "h")]
  | VStr "app/legacy-db" => ReadData [("DB_USER", VStr "z")]
  | VStr "app/pass" => ReadData [("DB_PASS", VStr "y")]
  | _ => ReadRaises (HvacError "InvalidPath")
  end.

Definition sample_runtime (logger : bool) : Runtime :=
  mkRuntime logger ["/opt/jobs/loader.py"] sample_json_dumps ascii_str_upper
    (fun _ _ _ _ => LoginToken (Some "tok")) sample_read.

(** A host whose login hands back an empty token. *)
Definition no_token_runtime (logger : bool) : Runtime :=
  mkRuntime logger ["/opt/jobs/loader.py"] sample_json_dumps ascii_str_upper
    (fun _ _ _ _ => LoginToken (Some "")) sample_read.

Definition env_of (l : list (string * string)) : World :=
  mkWorld (list_to_map l) [].

(** An environment that holds the credentials and nothing else. *)
Definition world_with_credentials : World :=
  env_of [("role_id", "r"); ("secret_id", "s")].

Definition handler_from_env : VaultHandler :=
  mkVaultHandler (Some "r") (Some "s") (Some "https://vault").

(** ** Vocabulary of the statements *)

Definition credentials_in_env (w : World) : Prop :=
  is_Some (environ w !! "role_id") ∧ is_Some (environ w !! "secret_id").

(** Every bundle is a dictionary and no key occurs in two of them. *)
Definition disjoint_bundles (bundles : list dict) : Prop :=
  NoDup (keys (mjoin bundles)).

(** [k] occurs in two different bundles of the sequence. *)
Definition shared_key (bundles : list dict) (k : string) : Prop :=
  ∃ i j b1 b2, i ≠ j ∧ bundles !! i = Some b1 ∧ bundles !! j = Some b2
               ∧ k ∈ keys b1 ∧ k ∈ keys b2.

(** The string that [os.environ] ends up holding for a configuration value
    (line 113, or line 121 for a value that is not a [str]). *)
Definition env_string (rt : Runtime) (v : pyval) : string :=
  match v with
  | VStr s => s
  | _ => json_dumps rt v
  end.

(** The exceptions of [_set_environments] whose message carries the key of
    the configuration entry. *)
Definition exn_names_key (e : exn) (key : string) : Prop :=
  match e with
  | Exception (MsgVaultPathCannotRetrieve k _)
  | Exception (MsgVaultPathDuplicated k _ _)
  | Exception (MsgDuplicated k) => k = key
  | _ => False
  end.

Definition is_call (e : event) : bool :=
  match e with
  | EvLogin _ _ _ _ | EvRead _ => true
  | _ => false
  end.

(** The calls made to the backing store: logins and reads. *)
Definition vault_calls (t : list event) : list event := filter is_call t.

(** The world after the login of [self], and after reading [paths]. *)
Definition logged_in (self : VaultHandler) (verify : verify_policy)
    (w : World) : World :=
  mkWorld (environ w)
    (EvLogin (url self) verify (role_id self) (secret_id self) :: trace w).

Definition after_reads (paths : list pyval) (w : World) : World :=
  mkWorld (environ w) (reverse (EvRead <$> paths) ++ trace w).

Definition same_environ (w w' : World) : Prop := environ w' = environ w.
(** Every name that was set keeps its value. *)
Definition keeps_environ (w w' : World) : Prop := environ w ⊆ environ w'.

(** [m] relates every world it starts from to the world it ends in,
    whether it returns or raises. *)
Definition preserves {A} (R : relation World) (m : M A) : Prop :=
  ∀ w w' r, m w = (w', r) -> R w w'.

(** ** Further samples and vocabulary *)

(** A store that also holds values that are not strings. *)
Definition typed_read (c : Client) (path : pyval) : read_response :=
  match path with
  | VStr "app/flags" => ReadData [("RETRIES", VInt 3)]
  | VStr "app/mixed" => ReadData [("HOST", VStr "h"); ("PORT", VInt 5432)]
  | _ => sample_read c path
  end.

Definition typed_runtime (logger : bool) : Runtime :=
  mkRuntime logger ["/opt/jobs/loader.py"] sample_json_dumps ascii_str_upper
    (fun _ _ _ _ => LoginToken (Some "tok")) typed_read.

(** A host whose login exchange raises. *)
Definition failing_login_runtime (logger : bool) : Runtime :=
  mkRuntime logger ["/opt/jobs/loader.py"] sample_json_dumps ascii_str_upper
    (fun _ _ _ _ => LoginRaises (HvacError "InvalidRequest")) sample_read.

(** [os.environ[k] = v] goes through for this item: the value is a [str]
    and [putenv] accepts the name and the value. *)
Definition assignable (kv : string * pyval) : Prop :=
  ∃ s, kv.2 = VStr s
       ∧ valid_env_name kv.1 = true ∧ valid_env_value s = true.

(** The assignment of a configuration entry goes through, directly or
    after serialisation (lines 113 and 121). *)
Definition storable (rt : Runtime) (kv : string * pyval) : Prop :=
  valid_env_name kv.1 = true ∧ valid_env_value (env_string rt kv.2) = true.

Definition is_str (v : pyval) : Prop := ∃ s, v = VStr s.

(** The trace only grows. *)
Definition trace_grows (w w' : World) : Prop :=
  trace w `suffix_of` trace w'.

(** The environment [m] with the items of [d] on top, each value as
    [os.environ] stores it. *)
Definition environ_with (rt : Runtime) (d : dict)
    (m : gmap string string) (k : string) : option string :=
  match dict_get k d with
  | Some v => Some (env_string rt v)
  | None => m !! k
  end.

(** * Properties *)

(** ** The monad *)

Lemma bind_Return {A B} (m : M A) (k : A -> M B) w w1 a :
  m w = (w1, Return a) -> bind m k w = k a w1.
Proof. intros H. unfold bind. by rewrite H. Qed.

Lemma bind_Raise {A B} (m : M A) (k : A -> M B) w w1 e :
  m w = (w1, Raise e) -> bind m k w = (w1, Raise e).
Proof. intros H. unfold bind. by rewrite H. Qed.

Lemma bind_inv {A B} (m : M A) (k : A -> M B) w w' r :
  bind m k w = (w', r) ->
  (∃ e, m w = (w', Raise e) ∧ r = Raise e)
  ∨ (∃ w1 a, m w = (w1, Return a) ∧ k a w1 = (w', r)).
Proof.
  unfold bind. destruct (m w) as [w1 [e|a]]; intros H.
  - left. exists e. by inversion H.
  - right. by exists w1, a.
Qed.

Lemma bind_assoc_eval {A B C} (m : M A) (k : A -> M B) (h : B -> M C) w :
  bind (bind m k) h w = bind m (fun a => bind (k a) h) w.
Proof. unfold bind. by destruct (m w) as [w1 [e|a]]. Qed.

Section Preservation.
Context (R : relation World) `{!PreOrder R}.

Lemma preserves_ret {A} (a : A) : preserves R (ret a).
Proof. intros w w' r [= <- _]. reflexivity. Qed.

Lemma preserves_raise {A} e : preserves R (@raise A e).
Proof. intros w w' r [= <- _]. reflexivity. Qed.

Lemma preserves_bind {A B} (m : M A) (k : A -> M B) :
  preserves R m -> (∀ a, preserves R (k a)) -> preserves R (bind m k).
Proof.
  intros Hm Hk w w' r [(e & H & _)|(w1 & a & H1 & H2)]%bind_inv.
  - by eapply Hm.
  - etrans; [by eapply Hm | by eapply Hk].
Qed.

Lemma preserves_for_each {A} (f : A -> M unit) l :
  (∀ x, preserves R (f x)) -> preserves R (for_each f l).
Proof.
  intros Hf. induction l as [|x l IH]; simpl.
  - apply preserves_ret.
  - apply preserves_bind; [apply Hf | by intros _].
Qed.

Lemma preserves_environ_get k : preserves R (environ_get k).
Proof. intros w w' r [= <- _]. reflexivity. Qed.

Lemma preserves_environ_contains k : preserves R (environ_contains k).
Proof. intros w w' r [= <- _]. reflexivity. Qed.

Lemma preserves_if {A} (b : bool) (m1 m2 : M A) :
  preserves R m1 -> preserves R m2 -> preserves R (if b then m1 else m2).
Proof. by destruct b. Qed.
End Preservation.

#[local] Instance same_environ_preorder : PreOrder same_environ.
Proof.
  split; [done|]. intros w1 w2 w3. unfold same_environ. congruence.
Qed.

#[local] Instance keeps_environ_preorder : PreOrder keeps_environ.
Proof.
  split.
  - intros w. by unfold keeps_environ.
  - intros w1 w2 w3. unfold keeps_environ. by etrans.
Qed.

Lemma same_environ_keeps w w' : same_environ w w' -> keeps_environ w w'.
Proof. unfold same_environ, keeps_environ. by intros ->. Qed.

(** ** Dictionaries *)

Lemma keys_app (d1 d2 : dict) : keys (d1 ++ d2) = keys d1 ++ keys d2.
Proof. unfold keys. apply fmap_app. Qed.

Lemma dict_setitem_fresh k v (d : dict) :
  k ∉ keys d -> dict_setitem k v d = d ++ [(k, v)].
Proof.
  induction d as [|[k' v'] d IH]; simpl; [done|].
  intros Hk. rewrite not_elem_of_cons in Hk. destruct Hk as [Hne Hk].
  rewrite decide_False by done. by rewrite IH.
Qed.

Lemma dict_update_disjoint (d other : dict) :
  NoDup (keys (d ++ other)) -> dict_update d other = d ++ other.
Proof.
  revert d. induction other as [|[k v] other IH]; intros d Hnd.
  - by rewrite app_nil_r.
  - unfold dict_update in *. simpl.
    rewrite dict_setitem_fresh.
    + rewrite IH; [by rewrite <-app_assoc|]. by rewrite <-app_assoc.
    + rewrite keys_app in Hnd. apply NoDup_app in Hnd as (_ & Hd & _).
      intros Hin. apply (Hd k Hin). simpl. left.
Qed.

Lemma elem_of_keys_inter k (data results : dict) :
  k ∈ keys_inter data results <-> k ∈ keys data ∧ k ∈ keys results.
Proof. unfold keys_inter. rewrite list_elem_of_filter. tauto. Qed.

Lemma keys_inter_disjoint (data results : dict) :
  NoDup (keys (results ++ data)) -> keys_inter data results = [].
Proof.
  intros Hnd. rewrite keys_app in Hnd. apply NoDup_app in Hnd as (_ & Hd & _).
  apply elem_of_nil_inv. intros k [Hk1 Hk2]%elem_of_keys_inter.
  by apply (Hd k).
Qed.

Lemma nonempty_true {A} (l : list A) : nonempty l = true <-> l ≠ [].
Proof. by destruct l. Qed.

Lemma dict_get_Some k v (d : dict) :
  NoDup (keys d) -> dict_get k d = Some v <-> (k, v) ∈ d.
Proof.
  induction d as [|[k' v'] d IH]; simpl.
  - intros _. split; [done|]. by intros ?%elem_of_nil.
  - intros [Hk' Hnd]%NoDup_cons. rewrite elem_of_cons, <-(IH Hnd).
    destruct (decide (k = k')) as [->|Hne].
    + split; [intros [= ->]; by left|].
      intros [[= ->]|Hin]; [done|]. exfalso. apply Hk'.
      apply (IH Hnd) in Hin. apply (list_elem_of_fmap_2 fst) in Hin. done.
    + split; [by right|]. intros [[= -> _]|?]; done.
Qed.

Lemma dict_get_permutation k (d1 d2 : dict) :
  NoDup (keys d1) -> d1 ≡ₚ d2 -> dict_get k d1 = dict_get k d2.
Proof.
  intros Hnd Hp.
  assert (NoDup (keys d2)) as Hnd2 by (unfold keys; by rewrite <-Hp).
  apply option_eq. intros v. rewrite !dict_get_Some by done. by rewrite Hp.
Qed.

(** ** What the operations leave alone *)

Create HintDb pres.

Ltac pres_step :=
  lazymatch goal with
  | |- preserves _ (ret _) => apply preserves_ret
  | |- preserves _ (raise _) => apply preserves_raise
  | |- preserves _ (environ_get _) => apply preserves_environ_get
  | |- preserves _ (environ_contains _) => apply preserves_environ_contains
  | |- preserves _ (bind _ _) => apply preserves_bind
  | |- preserves _ (if _ then _ else _) => apply preserves_if
  | |- preserves _ (for_each _ _) => apply preserves_for_each
  | |- forall _, _ => intros ?
  | |- PreOrder _ => exact _
  end.

Ltac pres := repeat pres_step; eauto with pres typeclass_instances.

Lemma emit_same_environ e : preserves same_environ (emit e).
Proof. by intros w w' r [= <- _]. Qed.
#[local] Hint Resolve emit_same_environ : pres.

Lemma logger_call_same_environ rt m : preserves same_environ (logger_call rt m).
Proof. unfold logger_call. pres. Qed.
#[local] Hint Resolve logger_call_same_environ : pres.

Lemma check_env_credentials_preserves R `{!PreOrder R} :
  preserves R _check_env_credentials.
Proof. unfold _check_env_credentials. pres. Qed.
#[local] Hint Resolve check_env_credentials_preserves : pres.

Lemma read_secret_same_environ rt c path :
  preserves same_environ (read_secret rt c path).
Proof. unfold read_secret. pres. destruct (hvac_read rt c path); pres. Qed.
#[local] Hint Resolve read_secret_same_environ : pres.

Lemma approle_login_call_same_environ rt self verify :
  preserves same_environ (approle_login_call rt self verify).
Proof.
  unfold approle_login_call. pres. destruct (hvac_login _ _ _ _ _); pres.
Qed.
#[local] Hint Resolve approle_login_call_same_environ : pres.

Lemma approle_login_same_environ rt self verify :
  preserves same_environ (_approle_login rt self verify).
Proof. unfold _approle_login. pres. Qed.
#[local] Hint Resolve approle_login_same_environ : pres.

Lemma check_hvac_client_login_same_environ rt self verify :
  preserves same_environ (_check_hvac_client_login rt self verify).
Proof.
  intros w w' r. unfold _check_hvac_client_login.
  destruct (approle_login_call rt self verify w) as [w1 [e|t]] eqn:E;
    apply approle_login_call_same_environ in E; by intros [= <- _].
Qed.
#[local] Hint Resolve check_hvac_client_login_same_environ : pres.

Lemma the_client_preserves R `{!PreOrder R} client :
  preserves R (the_client client).
Proof. destruct client; simpl; pres. Qed.
#[local] Hint Resolve the_client_preserves : pres.

Lemma read_path_loop_same_environ rt c paths results :
  preserves same_environ (read_path_loop rt c paths results).
Proof.
  revert results. induction paths as [|p paths IH]; intros results; simpl; pres.
Qed.
#[local] Hint Resolve read_path_loop_same_environ : pres.

Lemma get_secret_loop_same_environ rt c paths results :
  preserves same_environ (get_secret_loop rt c paths results).
Proof.
  revert results. induction paths as [|p paths IH]; intros results; simpl; pres.
Qed.
#[local] Hint Resolve get_secret_loop_same_environ : pres.

(** [get_secret] never touches the environment. *)
Lemma get_secret_same_environ rt self path :
  preserves same_environ (get_secret rt self path).
Proof. unfold get_secret. pres. Qed.

(** Without the write to the environment, neither does [read_path]. *)
Lemma read_path_same_environ rt self path verify :
  preserves same_environ (read_path rt self path false verify).
Proof. unfold read_path. pres. Qed.

(** A guarded assignment ([if k not in os.environ: os.environ[k] = v])
    keeps every name that was set. *)
Lemma write_secret_keeps key value kv :
  preserves keeps_environ (write_secret key value kv).
Proof.
  intros w w' r. unfold write_secret, bind, environ_contains.
  destruct (bool_decide (is_Some (environ w !! kv.1))) eqn:E; simpl.
  - by intros [= <- _].
  - apply bool_decide_eq_false in E. rewrite <-eq_None_not_Some in E.
    unfold environ_setitem. destruct (kv.2); try by intros [= <- _].
    destruct (_ && _); intros [= <- _]; [|done].
    unfold keeps_environ. simpl. by apply insert_subseteq.
Qed.

Lemma set_plain_entry_keeps rt key value :
  preserves keeps_environ (set_plain_entry rt key value).
Proof.
  intros w w' r.
  unfold set_plain_entry, except_TypeError, bind, environ_contains,
    environ_get.
  destruct (bool_decide (is_Some (environ w !! key))) eqn:E; simpl.
  - intros [= <- _]. by unfold keeps_environ.
  - apply bool_decide_eq_false in E. rewrite <-eq_None_not_Some in E.
    pose proof (insert_subseteq (environ w) key) as Hins.
    unfold environ_setitem, keeps_environ.
    destruct value; simpl;
      destruct (valid_env_name key && valid_env_value _);
      intros [= <- _]; simpl; auto.
Qed.

Lemma get_secret_keeps rt self path :
  preserves keeps_environ (get_secret rt self path).
Proof.
  intros w w' r H. apply same_environ_keeps.
  by eapply get_secret_same_environ.
Qed.

Lemma expand_marker_entry_keeps rt self key value :
  preserves keeps_environ (expand_marker_entry rt self key value).
Proof.
  unfold expand_marker_entry.
  apply preserves_bind; [exact _ | apply get_secret_keeps |].
  intros [secrets|dup]; [|pres].
  apply preserves_for_each; [exact _|]. apply write_secret_keeps.
Qed.

Lemma set_environment_entry_keeps rt self key value :
  preserves keeps_environ (set_environment_entry rt self key value).
Proof.
  unfold set_environment_entry.
  apply preserves_bind; [exact _ | | intros _; apply set_plain_entry_keeps].
  destruct (String.prefix _ _); [apply expand_marker_entry_keeps | pres].
Qed.

(** [_set_environments] never changes the value of a name that is set,
    whether it returns or raises. *)
Lemma set_environments_keeps rt self env :
  preserves keeps_environ (_set_environments rt self env).
Proof.
  apply preserves_for_each; [exact _|].
  intros [k v]. apply set_environment_entry_keeps.
Qed.

(** ** Running the operations *)

Lemma check_env_credentials_true w :
  credentials_in_env w -> _check_env_credentials w = (w, Return true).
Proof.
  intros [H1 H2]. unfold _check_env_credentials, bind, environ_get, ret.
  by rewrite !bool_decide_eq_true_2.
Qed.

Lemma check_env_credentials_false w :
  ¬ credentials_in_env w -> _check_env_credentials w = (w, Return false).
Proof.
  intros H. unfold _check_env_credentials, bind, environ_get, ret.
  do 2 f_equal. unfold credentials_in_env in H.
  destruct (decide (is_Some (environ w !! "role_id"))) as [H1|H1].
  - rewrite (bool_decide_eq_false_2 (is_Some (environ w !! "secret_id")));
      [apply andb_false_r | tauto].
  - by rewrite (bool_decide_eq_false_2 _ H1).
Qed.

Lemma read_secret_data rt c p b w :
  hvac_read rt c p = ReadData b ->
  read_secret rt c p w = (after_reads [p] w, Return b).
Proof. intros H. unfold read_secret, bind, emit. simpl. by rewrite H. Qed.

Lemma after_reads_cons p ps w :
  after_reads ps (after_reads [p] w) = after_reads (p :: ps) w.
Proof.
  unfold after_reads. simpl. f_equal.
  by rewrite reverse_cons, <-app_assoc.
Qed.

(** The loop of [read_path] runs through paths that yield disjoint bundles
    and simply appends them. *)
Lemma read_path_loop_prefix rt c ps bs rest acc w :
  Forall2 (fun p b => hvac_read rt c p = ReadData b) ps bs ->
  NoDup (keys (acc ++ mjoin bs)) ->
  read_path_loop rt c (ps ++ rest) acc w
  = read_path_loop rt c rest (acc ++ mjoin bs) (after_reads ps w).
Proof.
  intros HF. revert acc w.
  induction HF as [|p b ps bs Hp HF IH]; intros acc w Hnd; simpl.
  - rewrite app_nil_r. by destruct w.
  - change (mjoin (b :: bs)) with (b ++ mjoin bs) in *.
    rewrite app_assoc in Hnd.
    assert (NoDup (keys (acc ++ b))) as Hab.
    { rewrite keys_app in Hnd. by apply NoDup_app in Hnd as (? & _ & _). }
    rewrite (bind_Return _ _ _ _ _ (read_secret_data _ _ _ _ _ Hp)).
    rewrite keys_inter_disjoint by done. simpl.
    rewrite dict_update_disjoint by done.
    rewrite IH by done. by rewrite after_reads_cons, app_assoc.
Qed.

Lemma get_secret_loop_prefix rt c ps bs rest acc w :
  Forall2 (fun p b => hvac_read rt c p = ReadData b) ps bs ->
  NoDup (keys (acc ++ mjoin bs)) ->
  get_secret_loop rt c (ps ++ rest) acc w
  = get_secret_loop rt c rest (acc ++ mjoin bs) (after_reads ps w).
Proof.
  intros HF. revert acc w.
  induction HF as [|p b ps bs Hp HF IH]; intros acc w Hnd; simpl.
  - rewrite app_nil_r. by destruct w.
  - change (mjoin (b :: bs)) with (b ++ mjoin bs) in *.
    rewrite app_assoc in Hnd.
    assert (NoDup (keys (acc ++ b))) as Hab.
    { rewrite keys_app in Hnd. by apply NoDup_app in Hnd as (? & _ & _). }
    rewrite (bind_Return _ _ _ _ _ (read_secret_data _ _ _ _ _ Hp)).
    rewrite keys_inter_disjoint by done. simpl.
    rewrite dict_update_disjoint by done.
    rewrite IH by done. by rewrite after_reads_cons, app_assoc.
Qed.

Lemma approle_login_call_token rt self verify t w :
  hvac_login rt (url self) verify (role_id self) (secret_id self)
  = LoginToken t ->
  approle_login_call rt self verify w = (logged_in self verify w, Return t).
Proof. intros H. unfold approle_login_call, bind, emit. simpl. by rewrite H. Qed.

(** [read_path] up to its loop, once the credentials are in the environment
    and the login yields a token. *)
Lemma read_path_logged_in rt self path flag verify t w :
  credentials_in_env w ->
  hvac_login rt (url self) verify (role_id self) (secret_id self)
  = LoginToken t ->
  truthy t = true ->
  read_path rt self path flag verify w
  = (do results <-
       read_path_loop rt (mkClient (url self) verify t) (paths_of path) [];
     (if flag
      then for_each (fun kv => environ_setitem kv.1 kv.2) results
      else ret tt) ;;
     ret results) (logged_in self verify w).
Proof.
  intros Hc Hl Ht. unfold read_path.
  rewrite (bind_Return _ _ _ _ _ (check_env_credentials_true _ Hc)). simpl.
  rewrite (bind_Return _ _ w w tt) by done.
  unfold _approle_login.
  erewrite (bind_Return (bind _ _)); last first.
  { erewrite bind_Return by by apply approle_login_call_token.
    rewrite Ht. done. }
  simpl. erewrite (bind_Return (ret _)) by done. simpl. rewrite Ht. simpl.
  by erewrite (bind_Return (ret tt)) by done.
Qed.

(** [get_secret] up to its loop, under the same conditions and with the
    logger bound. *)
Lemma get_secret_logged_in rt self path t w :
  logger_bound rt = true ->
  credentials_in_env w ->
  hvac_login rt (url self) (VerifyBool false) (role_id self) (secret_id self)
  = LoginToken t ->
  truthy t = true ->
  get_secret rt self path w
  = get_secret_loop rt (mkClient (url self) (VerifyBool false) t)
      (paths_of path) []
      (logged_in self (VerifyBool false)
         (mkWorld (environ w) (EvLog LogDeprecatedGetSecret :: trace w))).
Proof.
  intros Hlog Hc Hl Ht. unfold get_secret, logger_call. rewrite Hlog.
  erewrite bind_Return by done.
  erewrite bind_Return by by apply check_env_credentials_true.
  simpl. erewrite (bind_Return (ret tt)) by done.
  erewrite (bind_Return (_check_hvac_client_login _ _ _)); last first.
  { unfold _check_hvac_client_login.
    by erewrite approle_login_call_token by done. }
  simpl. erewrite (bind_Return (ret _)) by done. simpl. rewrite Ht. simpl.
  by erewrite (bind_Return (ret tt)) by done.
Qed.

(** ** Merging disjoint bundles *)

Lemma disjoint_bundles_elem bundles b :
  disjoint_bundles bundles -> b ∈ bundles -> NoDup (keys b).
Proof.
  unfold disjoint_bundles. induction bundles as [|b' bundles IH].
  - by intros _ ?%elem_of_nil.
  - change (mjoin (b' :: bundles)) with (b' ++ mjoin bundles).
    rewrite keys_app, NoDup_app, elem_of_cons.
    intros (Hb' & _ & Hrest) [->|Hin]; auto.
Qed.

Lemma dict_get_mjoin k v bundles :
  disjoint_bundles bundles ->
  dict_get k (mjoin bundles) = Some v
  <-> ∃ b, b ∈ bundles ∧ dict_get k b = Some v.
Proof.
  intros Hd. rewrite dict_get_Some by done. rewrite list_elem_of_join.
  split; intros (b & H1 & H2); exists b.
  - split; [done|]. apply dict_get_Some; [|done].
    by eapply disjoint_bundles_elem.
  - split; [|done]. apply dict_get_Some in H2; [done|].
    by eapply disjoint_bundles_elem.
Qed.

Lemma disjoint_bundles_permutation bundles bundles' :
  bundles ≡ₚ bundles' -> disjoint_bundles bundles ->
  disjoint_bundles bundles'.
Proof. unfold disjoint_bundles, keys. by intros ->. Qed.

Lemma Forall2_permutation_l {A B} (P : A -> B -> Prop) l l' k :
  Forall2 P l k -> l ≡ₚ l' -> ∃ k', k ≡ₚ k' ∧ Forall2 P l' k'.
Proof.
  intros HF Hp. revert k HF.
  induction Hp as [|x l l' Hp IH|x y l|l1 l2 l3 H1 IH1 H2 IH2]; intros k HF.
  - exists k. by split.
  - destruct k as [|z k]; inversion HF; subst.
    destruct (IH k) as (k' & ? & ?); [done|].
    exists (z :: k'). split; [by constructor | by constructor].
  - destruct k as [|z1 [|z2 k]]; inversion HF as [|? ? ? ? ? HF']; subst;
      inversion HF'; subst.
    exists (z2 :: z1 :: k). split; [apply perm_swap | by repeat constructor].
  - destruct (IH1 k HF) as (k1 & ? & HF1).
    destruct (IH2 k1 HF1) as (k2 & ? & HF2).
    exists k2. split; [by etrans | done].
Qed.

(** With disjoint bundles [read_path] returns their concatenation; the
    only trace it leaves is the login and the reads. *)
Lemma read_path_disjoint rt self path paths bundles verify token w :
  credentials_in_env w ->
  hvac_login rt (url self) verify (role_id self) (secret_id self)
  = LoginToken token ->
  truthy token = true ->
  paths_of path = paths ->
  Forall2 (fun p b => hvac_read rt (mkClient (url self) verify token) p
                      = ReadData b) paths bundles ->
  disjoint_bundles bundles ->
  read_path rt self path false verify w
  = (after_reads paths (logged_in self verify w), Return (mjoin bundles)).
Proof.
  intros Hc Hl Ht <- HF Hd.
  rewrite (read_path_logged_in _ _ _ _ _ _ _ Hc Hl Ht).
  rewrite <-(app_nil_r (paths_of path)).
  erewrite bind_Return; last first.
  { erewrite read_path_loop_prefix by done. simpl. done. }
  rewrite app_nil_r. done.
Qed.

Lemma read_path_disjoint_result rt self path paths bundles verify token w
    flag w' r :
  credentials_in_env w ->
  hvac_login rt (url self) verify (role_id self) (secret_id self)
  = LoginToken token ->
  truthy token = true ->
  paths_of path = paths ->
  Forall2 (fun p b => hvac_read rt (mkClient (url self) verify token) p
                      = ReadData b) paths bundles ->
  disjoint_bundles bundles ->
  read_path rt self path flag verify w = (w', Return r) ->
  r = mjoin bundles.
Proof.
  intros Hc Hl Ht <- HF Hd.
  rewrite (read_path_logged_in _ _ _ _ _ _ _ Hc Hl Ht).
  rewrite <-(app_nil_r (paths_of path)).
  erewrite bind_Return; last first.
  { erewrite read_path_loop_prefix by done. simpl. done. }
  intros [(e & _ & [=])|(w1 & [] & _ & [= _ ->])]%bind_inv. done.
Qed.

(** C4. For bundles whose key sets are pairwise disjoint, the accumulation
    of [read_path] succeeds and returns exactly their union: the merged
    dictionary is the concatenation of the bundles in path order, a key is
    bound in it exactly when one of the bundles binds it, with that value;
    the environment is not touched, and when the caller also asks for the
    write to the environment, whatever is returned is that same union. *)
Theorem read_path_merges_disjoint_bundles
    rt self path paths bundles verify token w :
  credentials_in_env w ->
  hvac_login rt (url self) verify (role_id self) (secret_id self)
  = LoginToken token ->
  truthy token = true ->
  paths_of path = paths ->
  Forall2 (fun p b => hvac_read rt (mkClient (url self) verify token) p
                      = ReadData b) paths bundles ->
  disjoint_bundles bundles ->
  ∃ w' merged,
    read_path rt self path false verify w = (w', Return merged)
    ∧ merged = mjoin bundles
    ∧ (∀ k v, dict_get k merged = Some v
              <-> ∃ b, b ∈ bundles ∧ dict_get k b = Some v)
    ∧ environ w' = environ w
    ∧ (∀ w'' r, read_path rt self path true verify w = (w'', Return r) ->
                r = merged).
Proof.
  intros Hc Hl Ht Hp HF Hd.
  exists (after_reads paths (logged_in self verify w)), (mjoin bundles).
  split; [by eapply read_path_disjoint|].
  split; [done|]. split; [intros k v; by apply dict_get_mjoin|].
  split; [done|]. intros w'' r Hr.
  by eapply read_path_disjoint_result.
Qed.

Lemma read_path_merges_disjoint_bundles_witness :
  ∃ w' merged,
    read_path (sample_runtime false) handler_from_env
      (VList [VStr "app/db"; VStr "app/cache"]) false (VerifyBool true)
      world_with_credentials = (w', Return merged)
    ∧ merged = mjoin [[("DB_USER", VStr "a"); ("DB_PASS", VStr "b")];
                      [("CACHE_HOST", VStr "h")]]
    ∧ (∀ k v, dict_get k merged = Some v
              <-> ∃ b, b ∈ [[("DB_USER", VStr "a"); ("DB_PASS", VStr "b")];
                            [("CACHE_HOST", VStr "h")]]
                       ∧ dict_get k b = Some v)
    ∧ environ w' = environ world_with_credentials
    ∧ (∀ w'' r,
         read_path (sample_runtime false) handler_from_env
           (VList [VStr "app/db"; VStr "app/cache"]) true (VerifyBool true)
           world_with_credentials = (w'', Return r) ->
         r = merged).
Proof.
  apply (read_path_merges_disjoint_bundles (sample_runtime false)
           handler_from_env (VList [VStr "app/db"; VStr "app/cache"])
           [VStr "app/db"; VStr "app/cache"] _ (VerifyBool true) (Some "tok")).
  - split; vm_compute; eauto.
  - reflexivity.
  - reflexivity.
  - reflexivity.
  - repeat constructor.
  - apply (bool_decide_unpack _). vm_compute. exact I.
Defined.

(** C9. For bundles with pairwise disjoint key sets the merged result of
    [read_path] does not depend on the order of the paths: both orders
    succeed, the two dictionaries hold the same items (one is a permutation
    of the other) and bind every key to the same value, which is what [==]
    on Python dictionaries compares. *)
Theorem read_path_order_irrelevant
    rt self paths paths' bundles verify token w :
  credentials_in_env w ->
  hvac_login rt (url self) verify (role_id self) (secret_id self)
  = LoginToken token ->
  truthy token = true ->
  Forall2 (fun p b => hvac_read rt (mkClient (url self) verify token) p
                      = ReadData b) paths bundles ->
  disjoint_bundles bundles ->
  paths ≡ₚ paths' ->
  ∃ w1 w2 r r',
    read_path rt self (VList paths) false verify w = (w1, Return r)
    ∧ read_path rt self (VList paths') false verify w = (w2, Return r')
    ∧ r ≡ₚ r'
    ∧ (∀ k, dict_get k r = dict_get k r').
Proof.
  intros Hc Hl Ht HF Hd Hp.
  destruct (Forall2_permutation_l _ _ _ _ HF Hp) as (bundles' & Hb & HF').
  pose proof (disjoint_bundles_permutation _ _ Hb Hd) as Hd'.
  exists (after_reads paths (logged_in self verify w)),
         (after_reads paths' (logged_in self verify w)),
         (mjoin bundles), (mjoin bundles').
  split; [by eapply read_path_disjoint|].
  split; [by eapply read_path_disjoint|].
  assert (mjoin bundles ≡ₚ mjoin bundles') as Hj by by rewrite Hb.
  split; [done|]. intros k. by apply dict_get_permutation.
Qed.

Lemma read_path_order_irrelevant_witness :
  ∃ w1 w2 r r',
    read_path (sample_runtime false) handler_from_env
      (VList [VStr "app/db"; VStr "app/cache"]) false (VerifyBool true)
      world_with_credentials = (w1, Return r)
    ∧ read_path (sample_runtime false) handler_from_env
        (VList [VStr "app/cache"; VStr "app/db"]) false (VerifyBool true)
        world_with_credentials = (w2, Return r')
    ∧ r ≡ₚ r'
    ∧ (∀ k, dict_get k r = dict_get k r').
Proof.
  apply (read_path_order_irrelevant (sample_runtime false) handler_from_env
           [VStr "app/db"; VStr "app/cache"] [VStr "app/cache"; VStr "app/db"]
           [[("DB_USER", VStr "a"); ("DB_PASS", VStr "b")];
            [("CACHE_HOST", VStr "h")]]
           (VerifyBool true) (Some "tok")).
  - split; vm_compute; eauto.
  - reflexivity.
  - reflexivity.
  - repeat constructor.
  - apply (bool_decide_unpack _). vm_compute. exact I.
  - apply perm_swap.
Defined.

(** ** Overlapping bundles *)

Lemma elem_of_keys_mjoin k bundles :
  k ∈ keys (mjoin bundles) <-> ∃ b, b ∈ bundles ∧ k ∈ keys b.
Proof.
  unfold keys. rewrite list_elem_of_fmap. split.
  - intros (kv & -> & (b & Hkv & Hb)%list_elem_of_join).
    exists b. split; [done|]. by apply list_elem_of_fmap_2.
  - intros (b & Hb & (kv & -> & Hkv)%list_elem_of_fmap).
    exists kv. split; [done|]. apply list_elem_of_join. by exists b.
Qed.

(** [read_path] at the first path whose bundle overlaps the earlier ones. *)
Lemma read_path_conflict rt self path ps1 p ps2 bs1 b verify token flag w :
  credentials_in_env w ->
  hvac_login rt (url self) verify (role_id self) (secret_id self)
  = LoginToken token ->
  truthy token = true ->
  paths_of path = ps1 ++ p :: ps2 ->
  Forall2 (fun p b => hvac_read rt (mkClient (url self) verify token) p
                      = ReadData b) ps1 bs1 ->
  hvac_read rt (mkClient (url self) verify token) p = ReadData b ->
  disjoint_bundles bs1 ->
  keys_inter b (mjoin bs1) ≠ [] ->
  read_path rt self path flag verify w
  = let w1 := after_reads (ps1 ++ [p]) (logged_in self verify w) in
    if logger_bound rt
    then (mkWorld (environ w)
            (EvLog (LogDuplicateKeysFetched (keys_inter b (mjoin bs1)))
             :: trace w1),
          Raise BareRaise)
    else (w1, Raise (NameError "logger")).
Proof.
  intros Hc Hl Ht Hp HF Hb Hd Hi.
  rewrite (read_path_logged_in _ _ _ _ _ _ _ Hc Hl Ht), Hp.
  assert (after_reads (ps1 ++ [p]) (logged_in self verify w)
          = after_reads [p] (after_reads ps1 (logged_in self verify w)))
    as ->.
  { unfold after_reads. simpl. f_equal.
    by rewrite fmap_app, reverse_app, <-app_assoc. }
  apply nonempty_true in Hi.
  unfold bind at 1. rewrite (read_path_loop_prefix _ _ _ bs1) by done.
  simpl. rewrite (bind_Return _ _ _ _ _ (read_secret_data _ _ _ _ _ Hb)).
  rewrite Hi. unfold logger_call, bind, emit, raise.
  by destruct (logger_bound rt).
Qed.

(** [get_secret] at the same point. *)
Lemma get_secret_conflict rt self path ps1 p ps2 bs1 b token w :
  logger_bound rt = true ->
  credentials_in_env w ->
  hvac_login rt (url self) (VerifyBool false) (role_id self) (secret_id self)
  = LoginToken token ->
  truthy token = true ->
  paths_of path = ps1 ++ p :: ps2 ->
  Forall2 (fun p b =>
             hvac_read rt (mkClient (url self) (VerifyBool false) token) p
             = ReadData b) ps1 bs1 ->
  hvac_read rt (mkClient (url self) (VerifyBool false) token) p
  = ReadData b ->
  disjoint_bundles bs1 ->
  keys_inter b (mjoin bs1) ≠ [] ->
  ∃ w', get_secret rt self path w
        = (w', Return (SecretDuplicated (keys_inter b (mjoin bs1))))
        ∧ environ w' = environ w.
Proof.
  intros Hlog Hc Hl Ht Hp HF Hb Hd Hi.
  rewrite (get_secret_logged_in _ _ _ _ _ Hlog Hc Hl Ht), Hp.
  apply nonempty_true in Hi.
  rewrite (get_secret_loop_prefix _ _ _ bs1) by done.
  simpl. rewrite (bind_Return _ _ _ _ _ (read_secret_data _ _ _ _ _ Hb)).
  rewrite Hi. by eexists.
Qed.

(** With the name [logger] unbound, [get_secret] stops at its first line. *)
Lemma get_secret_logger_unbound rt self path w :
  logger_bound rt = false ->
  get_secret rt self path w = (w, Raise (NameError "logger")).
Proof. intros H. unfold get_secret, logger_call. by rewrite H. Qed.

(** C3, as the code has it.  The accumulation stops at the first bundle
    that shares a key with the bundles before it.  The keys reported are
    the keys of that bundle that occur in an earlier bundle, and no others:
    with two bundles, exactly the keys they share.  [read_path] raises and
    returns nothing, whatever the logger; with the logger bound it has
    logged those keys and the exception is the one of a bare [raise].
    [get_secret], with the logger bound, returns the failure pair with the
    same keys.  Neither writes to the environment. *)
Theorem merge_stops_at_first_overlap
    rt self path ps1 p ps2 bs1 b verify token flag w :
  credentials_in_env w ->
  (∀ v, hvac_login rt (url self) v (role_id self) (secret_id self)
        = LoginToken token) ->
  truthy token = true ->
  paths_of path = ps1 ++ p :: ps2 ->
  (∀ c, Forall2 (fun p b => hvac_read rt c p = ReadData b) ps1 bs1) ->
  (∀ c, hvac_read rt c p = ReadData b) ->
  disjoint_bundles bs1 ->
  (∃ k b', b' ∈ bs1 ∧ k ∈ keys b' ∧ k ∈ keys b) ->
  ∃ dup,
    (∀ k, k ∈ dup <-> k ∈ keys b ∧ ∃ b', b' ∈ bs1 ∧ k ∈ keys b')
    ∧ (∃ w' e,
         read_path rt self path flag verify w = (w', Raise e)
         ∧ environ w' = environ w
         ∧ (logger_bound rt = true ->
            e = BareRaise
            ∧ head (trace w') = Some (EvLog (LogDuplicateKeysFetched dup))))
    ∧ (logger_bound rt = true ->
       ∃ w', get_secret rt self path w = (w', Return (SecretDuplicated dup))
             ∧ environ w' = environ w).
Proof.
  intros Hc Hl Ht Hp HF Hb Hd (k0 & b0 & Hb0 & Hk0 & Hk0').
  exists (keys_inter b (mjoin bs1)).
  assert (keys_inter b (mjoin bs1) ≠ []) as Hne.
  { intros Hnil. apply (elem_of_nil k0). rewrite <-Hnil.
    apply elem_of_keys_inter. split; [done|].
    apply elem_of_keys_mjoin. by exists b0. }
  split; [|split].
  - intros k. by rewrite elem_of_keys_inter, elem_of_keys_mjoin.
  - erewrite read_path_conflict by done. simpl.
    destruct (logger_bound rt); eexists _, _; (split; [done|]);
      (split; [done|]); [by intros _ | by intros [=]].
  - intros Hlog. by eapply get_secret_conflict.
Qed.

Lemma merge_stops_at_first_overlap_witness :
  ∃ dup,
    (∀ k, k ∈ dup
          <-> k ∈ keys [("DB_USER", VStr "z")]
              ∧ ∃ b', b' ∈ [[("DB_USER", VStr "a"); ("DB_PASS", VStr "b")];
                            [("CACHE_HOST", VStr "h")]]
                      ∧ k ∈ keys b')
    ∧ (∃ w' e,
         read_path (sample_runtime true) handler_from_env
           (VList [VStr "app/db"; VStr "app/cache"; VStr "app/legacy-db";
                   VStr "app/pass"])
           false (VerifyBool true) world_with_credentials = (w', Raise e)
         ∧ environ w' = environ world_with_credentials
         ∧ (logger_bound (sample_runtime true) = true ->
            e = BareRaise
            ∧ head (trace w') = Some (EvLog (LogDuplicateKeysFetched dup))))
    ∧ (logger_bound (sample_runtime true) = true ->
       ∃ w',
         get_secret (sample_runtime true) handler_from_env
           (VList [VStr "app/db"; VStr "app/cache"; VStr "app/legacy-db";
                   VStr "app/pass"])
           world_with_credentials = (w', Return (SecretDuplicated dup))
         ∧ environ w' = environ world_with_credentials).
Proof.
  apply (merge_stops_at_first_overlap (sample_runtime true) handler_from_env
           _ [VStr "app/db"; VStr "app/cache"] (VStr "app/legacy-db")
           [VStr "app/pass"] _ _ (VerifyBool true) (Some "tok")).
  - split; vm_compute; eauto.
  - reflexivity.
  - reflexivity.
  - reflexivity.
  - intros c. repeat constructor.
  - reflexivity.
  - apply (bool_decide_unpack _). vm_compute. exact I.
  - exists "DB_USER", [("DB_USER", VStr "a"); ("DB_PASS", VStr "b")].
    split; [left|]. split; left.
Defined.

(** C3 as stated fails: from the bundles [{DB_USER, DB_PASS}], [{DB_USER}],
    [{DB_PASS}] both operations report [DB_USER] only, although [DB_PASS]
    is shared by the first and the third bundle. *)
Lemma merge_reports_all_shared_keys_counterexample :
  let paths := [VStr "app/db"; VStr "app/legacy-db"; VStr "app/pass"] in
  let bundles := [[("DB_USER", VStr "a"); ("DB_PASS", VStr "b")];
                  [("DB_USER", VStr "z")]; [("DB_PASS", VStr "y")]] in
  let rp := read_path (sample_runtime true) handler_from_env (VList paths)
              false (VerifyBool true) world_with_credentials in
  let gs := get_secret (sample_runtime true) handler_from_env (VList paths)
              world_with_credentials in
  (∀ c, Forall2 (fun p b => sample_read c p = ReadData b) paths bundles)
  ∧ rp.2 = Raise BareRaise
  ∧ head (trace rp.1) = Some (EvLog (LogDuplicateKeysFetched ["DB_USER"]))
  ∧ gs.2 = Return (SecretDuplicated ["DB_USER"])
  ∧ ¬ (∀ k, shared_key bundles k <-> k ∈ ["DB_USER"]).
Proof.
  simpl. split; [intros c; repeat constructor|].
  split; [by vm_compute|]. split; [by vm_compute|]. split; [by vm_compute|].
  intros H.
  assert ("DB_PASS" ∈ ["DB_USER"]) as Hin.
  { apply H. exists 0, 2, [("DB_USER", VStr "a"); ("DB_PASS", VStr "b")],
      [("DB_PASS", VStr "y")].
    split; [done|]. split; [done|]. split; [done|].
    split; [right; left | left]. }
  apply list_elem_of_singleton in Hin. discriminate.
Qed.

(** C6 on the file as it stands, for two paths that share [DB_USER]: the
    first statement of [get_secret] uses the unbound name [logger], so the
    call raises [NameError] and returns no pair; only on a host that binds
    the name does it return the failure pair. *)
Lemma get_secret_duplicate_as_written :
  get_secret (sample_runtime false) handler_from_env
    (VList [VStr "app/db"; VStr "app/legacy-db"]) world_with_credentials
  = (world_with_credentials, Raise (NameError "logger"))
  ∧ (get_secret (sample_runtime true) handler_from_env
       (VList [VStr "app/db"; VStr "app/legacy-db"]) world_with_credentials).2
    = Return (SecretDuplicated ["DB_USER"]).
Proof. split; by vm_compute. Qed.

(** ** Credentials and token *)

(** When the credentials are not both in the environment, [read_path]
    raises before any call to the backing store, whatever the handler
    holds. *)
Lemma read_path_without_env_credentials rt self path flag verify w :
  ¬ credentials_in_env w ->
  ∃ w' e,
    read_path rt self path flag verify w = (w', Raise e)
    ∧ vault_calls (trace w') = vault_calls (trace w)
    ∧ environ w' = environ w
    ∧ e = if logger_bound rt then BareRaise else NameError "logger".
Proof.
  intros Hc.
  destruct (read_path rt self path flag verify w) as [w' r] eqn:E.
  pose proof (check_env_credentials_false _ Hc) as Hchk.
  unfold read_path in E. rewrite (bind_Return _ _ _ _ _ Hchk) in E.
  unfold logger_call, bind, emit, raise in E. simpl in E.
  destruct (logger_bound rt); simplify_eq; by eexists _, _.
Qed.

(** Likewise [get_secret], on a host that binds the logger. *)
Lemma get_secret_without_env_credentials rt self path w :
  logger_bound rt = true ->
  ¬ credentials_in_env w ->
  ∃ w',
    get_secret rt self path w = (w', Raise (ValueError MsgCredentialsMissing))
    ∧ vault_calls (trace w') = vault_calls (trace w)
    ∧ environ w' = environ w.
Proof.
  intros Hlog Hc.
  destruct (get_secret rt self path w) as [w' r] eqn:E.
  unfold get_secret, logger_call in E. rewrite Hlog in E.
  erewrite bind_Return in E by done.
  erewrite (bind_Return _check_env_credentials) in E
    by by apply check_env_credentials_false.
  injection E as <- <-. by eexists.
Qed.

(** What [read_path] does when the login hands back no usable token
    ([None] or the empty string, or no token at all because the exchange
    raised): it raises before any read of the backing store and without
    touching the environment, but never through its own token check.  With
    the credentials in the environment the exception is [NameError] at the
    log call of [_approle_login] as the file stands, and [AttributeError]
    on [client.token] when the logger is bound, since [_approle_login] has
    then returned [None]; an exception of the exchange goes through as it
    is. *)
Theorem read_path_without_token_fails_before_fetch
    rt self path flag verify w :
  (∀ token,
     hvac_login rt (url self) verify (role_id self) (secret_id self)
     = LoginToken token -> truthy token = false) ->
  ∃ w' e,
    read_path rt self path flag verify w = (w', Raise e)
    ∧ (∀ p, EvRead p ∈ trace w' -> EvRead p ∈ trace w)
    ∧ environ w' = environ w
    ∧ (credentials_in_env w ->
       e = match hvac_login rt (url self) verify (role_id self)
                   (secret_id self) with
           | LoginRaises e' => e'
           | LoginToken _ =>
               if logger_bound rt then AttributeError "token"
               else NameError "logger"
           end).
Proof.
  intros Hl.
  destruct (decide (credentials_in_env w)) as [Hc|Hc].
  - destruct (read_path rt self path flag verify w) as [w' r] eqn:E.
    pose proof (check_env_credentials_true _ Hc) as Hchk.
    unfold read_path in E. rewrite (bind_Return _ _ _ _ _ Hchk) in E.
    simpl in E. rewrite (bind_Return _ _ w w tt) in E by done.
    unfold _approle_login in E.
    rewrite (bind_assoc_eval (approle_login_call rt self verify)) in E.
    unfold approle_login_call in E.
    rewrite (bind_assoc_eval (emit _)) in E.
    erewrite (bind_Return (emit _)) in E by done.
    destruct (hvac_login rt (url self) verify (role_id self) (secret_id self))
      as [e'|token] eqn:Hlogin.
    + unfold bind, raise in E. simplify_eq.
      eexists _, _; (split; [done|]); (split; [|done]); intros p Hin;
        simpl in Hin;
        repeat (apply elem_of_cons in Hin as [Hin|Hin]; [discriminate|]);
        exact Hin.
    + erewrite (bind_Return (ret token)) in E by done.
      rewrite (Hl token eq_refl) in E.
      unfold logger_call, bind, emit, raise, ret in E. simpl in E.
      destruct (logger_bound rt); simpl in E; simplify_eq;
        eexists _, _; (split; [done|]); (split; [|done]); intros p Hin;
        simpl in Hin;
        repeat (apply elem_of_cons in Hin as [Hin|Hin]; [discriminate|]);
        exact Hin.
  - destruct (read_path_without_env_credentials rt self path flag verify w Hc)
      as (w' & e & Hr & Hcalls & Henv & He).
    exists w', e. split; [done|]. split; [|split; [done|tauto]].
    intros p Hp.
    assert (EvRead p ∈ vault_calls (trace w')) as Hin
      by (by apply list_elem_of_filter).
    rewrite Hcalls in Hin. by apply list_elem_of_filter in Hin as [_ ?].
Qed.

Lemma read_path_without_token_fails_before_fetch_witness :
  ∃ w' e,
    read_path (no_token_runtime false) handler_from_env (VStr "app/db") false
      (VerifyBool true) world_with_credentials = (w', Raise e)
    ∧ (∀ p, EvRead p ∈ trace w' -> EvRead p ∈ trace world_with_credentials)
    ∧ environ w' = environ world_with_credentials
    ∧ (credentials_in_env world_with_credentials ->
       e = match hvac_login (no_token_runtime false)
                   (url handler_from_env) (VerifyBool true)
                   (role_id handler_from_env) (secret_id handler_from_env)
           with
           | LoginRaises e' => e'
           | LoginToken _ =>
               if logger_bound (no_token_runtime false)
               then AttributeError "token" else NameError "logger"
           end).
Proof.
  apply (read_path_without_token_fails_before_fetch (no_token_runtime false)
           handler_from_env (VStr "app/db") false (VerifyBool true)).
  intros token [= <-]. reflexivity.
Defined.

(** A client that [_approle_login] returns always carries a token, so the
    check of lines 142-146 of [read_path] never fires: whenever the token
    is missing there is no client to ask for it. *)
Lemma approle_login_client_has_token rt self verify w w' c :
  _approle_login rt self verify w = (w', Return (Some c)) ->
  truthy (client_token c) = true.
Proof.
  unfold _approle_login.
  intros [(e & _ & [=])|(w1 & t & _ & Hrest)]%bind_inv.
  destruct (truthy t) eqn:Ht.
  - injection Hrest as _ <-. exact Ht.
  - apply bind_inv in Hrest as [(e & _ & [=])|(w2 & [] & _ & [=])].
Qed.

(** C5 on a login that hands back the empty token, with the credentials in
    the environment.  [read_path] does stop before any read, but not with
    an error about the token: as the file stands the log call of
    [_approle_login] raises [NameError] on the unbound name [logger]; with
    the name bound [_approle_login] returns [None] and [client.token]
    raises [AttributeError], so the check of lines 142-146 is not reached.
    [get_secret], on the same host, does raise the error about the token
    (line 196). *)
Lemma read_path_empty_token_as_written :
  read_path (no_token_runtime false) handler_from_env (VStr "app/db") false
    (VerifyBool true) world_with_credentials
  = (logged_in handler_from_env (VerifyBool true) world_with_credentials,
     Raise (NameError "logger"))
  ∧ read_path (no_token_runtime true) handler_from_env (VStr "app/db") false
      (VerifyBool true) world_with_credentials
    = (mkWorld (environ world_with_credentials)
         [EvLog LogUnableToFetchToken;
          EvLogin (Some "https://vault") (VerifyBool true) (Some "r")
            (Some "s")],
       Raise (AttributeError "token"))
  ∧ (get_secret (no_token_runtime true) handler_from_env (VStr "app/db")
       world_with_credentials).2
    = Raise (ValueError MsgCannotInstantiate).
Proof. repeat split; by vm_compute. Qed.

(** C7 on a handler that was given both identifiers as arguments, in an
    environment that holds neither: the constructor keeps the arguments,
    yet [read_path] and [get_secret] stop at the credential check, which
    looks at the environment only, and no login is attempted. *)
Lemma explicit_credentials_are_rejected :
  let w := env_of [] in
  let self := mkVaultHandler (Some "r") (Some "s") (Some "https://vault") in
  init (Some "https://vault") (Some "r") (Some "s") w = (w, Return self)
  ∧ read_path (sample_runtime false) self (VStr "app/db") false
      (VerifyBool true) w
    = (w, Raise (NameError "logger"))
  ∧ read_path (sample_runtime true) self (VStr "app/db") false
      (VerifyBool true) w
    = (mkWorld ∅ [EvLog LogCredentialsMissing], Raise BareRaise)
  ∧ get_secret (sample_runtime true) self (VStr "app/db") w
    = (mkWorld ∅ [EvLog LogDeprecatedGetSecret],
       Raise (ValueError MsgCredentialsMissing)).
Proof. repeat split; by vm_compute. Qed.

(** The converse slip of the same check: a handler that holds no
    identifier passes it as soon as the environment has the two names, and
    the login is attempted with [None] for both. *)
Lemma env_credentials_suffice_for_the_check :
  let self := mkVaultHandler None None (Some "https://vault") in
  (read_path (sample_runtime false) self (VStr "app/cache") false
     (VerifyBool true) world_with_credentials).2
  = Return [("CACHE_HOST", VStr "h")]
  ∧ EvLogin (Some "https://vault") (VerifyBool true) None None
    ∈ trace (read_path (sample_runtime false) self (VStr "app/cache") false
               (VerifyBool true) world_with_credentials).1.
Proof. split; [by vm_compute|]. vm_compute. right. left. Qed.

(** ** Writing into the environment *)

(** C1 on [read_path] with the write to the environment: [DB_USER] is
    already set to ["old"]; the call returns normally and the name now
    holds the secret. *)
Lemma read_path_environ_overwrites :
  let w := env_of [("role_id", "r"); ("secret_id", "s"); ("DB_USER", "old")] in
  let run := read_path (sample_runtime false) handler_from_env
               (VStr "app/legacy-db") true (VerifyBool true) w in
  environ w !! "DB_USER" = Some "old"
  ∧ run.2 = Return [("DB_USER", VStr "z")]
  ∧ environ run.1 !! "DB_USER" = Some "z".
Proof. repeat split; by vm_compute. Qed.

(** The other writer refuses: a plain entry whose key is set makes
    [_set_environments] print, raise and leave the environment as it is. *)
Lemma set_environment_entry_duplicate rt self key value old w :
  String.prefix "VAULT_PATH_" key = false ->
  environ w !! key = Some old ->
  set_environment_entry rt self key value w
  = (mkWorld (environ w) (EvPrintDuplicated key old value :: trace w),
     Raise (Exception (MsgDuplicated key))).
Proof.
  intros Hp Hk. unfold set_environment_entry. rewrite Hp.
  erewrite (bind_Return (ret tt)) by done.
  unfold set_plain_entry, except_TypeError, bind, environ_contains,
    environ_get, emit, raise.
  rewrite bool_decide_eq_true_2 by done. simpl. by rewrite Hk.
Qed.

Lemma dict_get_None k (d : dict) : dict_get k d = None <-> k ∉ keys d.
Proof.
  induction d as [|[k' v'] d IH]; simpl.
  - split; [intros _ ?%elem_of_nil; done | done].
  - rewrite not_elem_of_cons. destruct (decide (k = k')); simpl.
    + split; [done | tauto].
    + rewrite IH. tauto.
Qed.

Lemma for_each_app {A} (f : A -> M unit) l1 l2 w :
  for_each f (l1 ++ l2) w = (for_each f l1 ;; for_each f l2) w.
Proof.
  revert w. induction l1 as [|x l1 IH]; intros w; simpl.
  - reflexivity.
  - rewrite bind_assoc_eval. unfold bind at 1 2.
    destruct (f x w) as [w1 [e|[]]]; [reflexivity|]. apply IH.
Qed.

(** A successful write of one secret: the name was free, the value is a
    [str], and only that name changes. *)
Lemma write_secret_success key value kv w w' :
  write_secret key value kv w = (w', Return tt) ->
  environ w !! kv.1 = None
  ∧ ∃ s, kv.2 = VStr s ∧ environ w' = <[kv.1 := s]> (environ w).
Proof.
  unfold write_secret, bind, environ_contains.
  destruct (bool_decide (is_Some (environ w !! kv.1))) eqn:E; simpl;
    [by intros [=]|].
  apply bool_decide_eq_false in E. rewrite <-eq_None_not_Some in E.
  unfold environ_setitem. destruct (kv.2) as [s| | | | |]; try by intros [=].
  destruct (_ && _); intros [= <-]. split; [done|]. by exists s.
Qed.

(** A successful run over the secrets of a path: every secret is a [str],
    every name was free and distinct, and the environment afterwards is
    the one before with exactly these names added. *)
Lemma write_secrets_success rt key value secrets w w' :
  for_each (write_secret key value) secrets w = (w', Return tt) ->
  (∀ k, k ∈ keys secrets -> environ w !! k = None)
  ∧ Forall (fun kv => ∃ s, kv.2 = VStr s) secrets
  ∧ (∀ k, environ w' !! k
          = match dict_get k secrets with
            | Some v => Some (env_string rt v)
            | None => environ w !! k
            end).
Proof.
  revert w. induction secrets as [|[k0 v0] secrets IH]; intros w; simpl.
  - intros [= <-]. split; [by intros k ?%elem_of_nil|]. by split.
  - intros [(e & _ & [=])|(w1 & [] & H1 & H2)]%bind_inv.
    apply write_secret_success in H1 as (Hfree & s & Hs & Hw1).
    simpl in Hfree, Hs. subst v0.
    apply IH in H2 as (Hfree' & Hall & Hlook).
    assert (k0 ∉ keys secrets) as Hk0.
    { intros Hin. apply Hfree' in Hin. rewrite Hw1 in Hin.
      by rewrite lookup_insert_eq in Hin. }
    split; [|split].
    + intros k [->|Hin]%elem_of_cons; [done|].
      pose proof (Hfree' k Hin) as Hk. rewrite Hw1 in Hk.
      apply lookup_insert_None in Hk. tauto.
    + constructor; [by exists s | done].
    + intros k. rewrite Hlook. destruct (decide (k = k0)) as [->|Hne].
      * apply dict_get_None in Hk0. rewrite Hk0, Hw1.
        by rewrite lookup_insert_eq.
      * destruct (dict_get k secrets); [done|].
        rewrite Hw1. by rewrite lookup_insert_ne.
Qed.

(** A successful assignment of the entry itself: its name was free and now
    holds the value, or the JSON text of a value that is not a [str]. *)
Lemma set_plain_entry_success rt key value w w' :
  set_plain_entry rt key value w = (w', Return tt) ->
  environ w !! key = None
  ∧ environ w' = <[key := env_string rt value]> (environ w).
Proof.
  unfold set_plain_entry, except_TypeError, bind, environ_contains,
    environ_get.
  destruct (bool_decide (is_Some (environ w !! key))) eqn:E; simpl;
    [by intros [=]|].
  apply bool_decide_eq_false in E. rewrite <-eq_None_not_Some in E.
  unfold environ_setitem.
  destruct value; simpl;
    destruct (valid_env_name key && valid_env_value _);
    intros [= <-]; by split.
Qed.

Lemma set_environment_entry_success rt self key value w w' :
  set_environment_entry rt self key value w = (w', Return tt) ->
  environ w' !! key = Some (env_string rt value).
Proof.
  unfold set_environment_entry.
  intros [(e & _ & [=])|(w1 & [] & _ & H2)]%bind_inv.
  apply set_plain_entry_success in H2 as (_ & ->).
  apply lookup_insert_eq.
Qed.

(** After a successful [_set_environments] every key of the configuration,
    with or without the prefix, is a name of the environment. *)
Lemma set_environments_success rt self env w w' :
  _set_environments rt self env w = (w', Return tt) ->
  ∀ k v, (k, v) ∈ env -> environ w' !! k = Some (env_string rt v).
Proof.
  unfold _set_environments. revert w.
  induction env as [|[k0 v0] env IH]; intros w; simpl.
  - intros _ k v ?%elem_of_nil. done.
  - intros [(e & _ & [=])|(w1 & [] & H1 & H2)]%bind_inv k v
      [[= -> ->]|Hin]%elem_of_cons.
    + apply set_environment_entry_success in H1.
      assert (keeps_environ w1 w') as Hk
        by (eapply (set_environments_keeps rt self env); exact H2).
      by eapply lookup_weaken.
    + by eapply IH.
Qed.

(** C2, as the code has it.  When [_set_environments] succeeds on a
    configuration that holds an entry with the prefix [VAULT_PATH_], the
    round of that entry has read the referenced path, and after the round
    the environment is the one before it with the secrets of the path
    added, each under its own key, and with the marker key itself added
    too, holding the path; both are still there when the call returns. *)
Theorem marker_entry_writes_secrets_and_marker
    rt self pre key value post w w' :
  String.prefix "VAULT_PATH_" key = true ->
  _set_environments rt self (pre ++ (key, value) :: post) w
  = (w', Return tt) ->
  ∃ w0 w1 w2 secrets,
    _set_environments rt self pre w = (w0, Return tt)
    ∧ get_secret rt self value w0 = (w1, Return (SecretOk secrets))
    ∧ set_environment_entry rt self key value w0 = (w2, Return tt)
    ∧ (∀ k, environ w2 !! k
            = if decide (k = key) then Some (env_string rt value)
              else match dict_get k secrets with
                   | Some v => Some (env_string rt v)
                   | None => environ w0 !! k
                   end)
    ∧ environ w' !! key = Some (env_string rt value)
    ∧ (∀ k v, dict_get k secrets = Some v ->
              environ w' !! k = Some (env_string rt v)).
Proof.
  intros Hp. unfold _set_environments. rewrite for_each_app.
  intros [(e & _ & [=])|(w0 & [] & Hpre & Hrest)]%bind_inv.
  simpl in Hrest.
  apply bind_inv in Hrest as [(e & _ & [=])|(w2 & [] & Hent & Hpost)].
  assert (keeps_environ w2 w') as Hkeep
    by (eapply (set_environments_keeps rt self post); exact Hpost).
  pose proof Hent as Hent'.
  unfold set_environment_entry in Hent. rewrite Hp in Hent.
  apply bind_inv in Hent as [(e & _ & [=])|(wm & [] & Hexp & Hplain)].
  unfold expand_marker_entry in Hexp.
  apply bind_inv in Hexp as [(e & _ & [=])|(w1 & r & Hget & Hloop)].
  destruct r as [secrets|dup]; [|by inversion Hloop].
  apply (write_secrets_success rt) in Hloop as (Hfree & Hall & Hlook).
  apply set_plain_entry_success in Hplain as (Hkfree & Hw2).
  assert (environ w1 = environ w0) as Henv
    by (by eapply get_secret_same_environ).
  assert (∀ k, environ w2 !! k
               = if decide (k = key) then Some (env_string rt value)
                 else match dict_get k secrets with
                      | Some v => Some (env_string rt v)
                      | None => environ w0 !! k
                      end) as Hround.
  { intros k. rewrite Hw2. destruct (decide (k = key)) as [->|Hne].
    - apply lookup_insert_eq.
    - rewrite lookup_insert_ne by done. by rewrite Hlook, Henv. }
  exists w0, w1, w2, secrets. repeat split; try done.
  - eapply lookup_weaken; [|exact Hkeep]. rewrite Hround.
    by rewrite decide_True.
  - intros k v Hk. eapply lookup_weaken; [|exact Hkeep]. rewrite Hround.
    rewrite Hk. destruct (decide (k = key)) as [->|Hne]; [|done].
    rewrite Hlook, Hk in Hkfree. done.
Qed.

Lemma marker_entry_writes_secrets_and_marker_witness :
  let rt := sample_runtime true in
  let run := _set_environments rt handler_from_env
               ([("A", VStr "1")] ++ ("VAULT_PATH_DB", VStr "app/db")
                :: [("B", VStr "2")]) world_with_credentials in
  ∃ w0 w1 w2 secrets,
    _set_environments rt handler_from_env [("A", VStr "1")]
      world_with_credentials = (w0, Return tt)
    ∧ get_secret rt handler_from_env (VStr "app/db") w0
      = (w1, Return (SecretOk secrets))
    ∧ set_environment_entry rt handler_from_env "VAULT_PATH_DB"
        (VStr "app/db") w0 = (w2, Return tt)
    ∧ (∀ k, environ w2 !! k
            = if decide (k = "VAULT_PATH_DB")
              then Some (env_string rt (VStr "app/db"))
              else match dict_get k secrets with
                   | Some v => Some (env_string rt v)
                   | None => environ w0 !! k
                   end)
    ∧ environ run.1 !! "VAULT_PATH_DB" = Some (env_string rt (VStr "app/db"))
    ∧ (∀ k v, dict_get k secrets = Some v ->
              environ run.1 !! k = Some (env_string rt v)).
Proof.
  apply (marker_entry_writes_secrets_and_marker (sample_runtime true)
           handler_from_env [("A", VStr "1")] "VAULT_PATH_DB" (VStr "app/db")
           [("B", VStr "2")] world_with_credentials).
  - reflexivity.
  - vm_compute. reflexivity.
Defined.

(** C2 as stated fails: the one-entry configuration
    [{"VAULT_PATH_DB": "app/db"}] is expanded successfully, [DB_USER] is
    written, and [VAULT_PATH_DB] is a name of the environment afterwards. *)
Lemma marker_key_never_written_counterexample :
  let run := _set_environments (sample_runtime true) handler_from_env
               [("VAULT_PATH_DB", VStr "app/db")] world_with_credentials in
  run.2 = Return tt
  ∧ environ run.1 !! "DB_USER" = Some "a"
  ∧ environ run.1 !! "VAULT_PATH_DB" = Some "app/db"
  ∧ ¬ (environ run.1 !! "VAULT_PATH_DB" = None).
Proof. repeat split; by vm_compute. Qed.

(** How [_set_environments] ends when the nested [get_secret] of an entry
    with the prefix fails: it stops there; an exception raised by
    [get_secret] goes through as it is, only a failure pair becomes the
    exception that names the entry and its path.  Nothing more is written:
    the environment is the one the earlier entries left, and each of them
    still holds its value. *)
Theorem failed_expansion_aborts_batch
    rt self pre key value post w w0 w1 r :
  String.prefix "VAULT_PATH_" key = true ->
  _set_environments rt self pre w = (w0, Return tt) ->
  get_secret rt self value w0 = (w1, r) ->
  (∀ secrets, r ≠ Return (SecretOk secrets)) ->
  ∃ e,
    _set_environments rt self (pre ++ (key, value) :: post) w
    = (w1, Raise e)
    ∧ match r with
      | Raise e' => e = e'
      | Return _ =>
          e = Exception (MsgVaultPathCannotRetrieve key value)
          ∧ exn_names_key e key
      end
    ∧ environ w1 = environ w0
    ∧ (∀ k v, (k, v) ∈ pre -> environ w1 !! k = Some (env_string rt v)).
Proof.
  intros Hp Hpre Hget Hfail.
  assert (environ w1 = environ w0) as Henv
    by (by eapply get_secret_same_environ).
  assert (∀ e,
    expand_marker_entry rt self key value w0 = (w1, Raise e) ->
    _set_environments rt self (pre ++ (key, value) :: post) w
    = (w1, Raise e)) as Hrun.
  { intros e He. unfold _set_environments. rewrite for_each_app.
    erewrite bind_Return by exact Hpre. simpl.
    erewrite bind_Raise; [done|].
    unfold set_environment_entry. rewrite Hp. by erewrite bind_Raise. }
  assert (∀ k v, (k, v) ∈ pre -> environ w1 !! k = Some (env_string rt v))
    as Hkept.
  { intros k v Hin. rewrite Henv. by eapply set_environments_success. }
  destruct r as [e|[secrets|dup]].
  - exists e. split; [|done]. apply Hrun.
    unfold expand_marker_entry. by erewrite bind_Raise.
  - by destruct (Hfail secrets).
  - exists (Exception (MsgVaultPathCannotRetrieve key value)).
    split; [|done]. apply Hrun.
    unfold expand_marker_entry. erewrite bind_Return by exact Hget.
    reflexivity.
Qed.

Lemma failed_expansion_aborts_batch_witness :
  let rt := sample_runtime true in
  let w0 := (_set_environments rt handler_from_env [("A", VStr "1")]
               world_with_credentials).1 in
  let gs := get_secret rt handler_from_env (VStr "app/missing") w0 in
  ∃ e,
    _set_environments rt handler_from_env
      ([("A", VStr "1")] ++ ("VAULT_PATH_DB", VStr "app/missing")
       :: [("B", VStr "2")]) world_with_credentials
    = (gs.1, Raise e)
    ∧ match gs.2 with
      | Raise e' => e = e'
      | Return _ =>
          e = Exception (MsgVaultPathCannotRetrieve "VAULT_PATH_DB"
                           (VStr "app/missing"))
          ∧ exn_names_key e "VAULT_PATH_DB"
      end
    ∧ environ gs.1 = environ w0
    ∧ (∀ k v, (k, v) ∈ [("A", VStr "1")] ->
              environ gs.1 !! k = Some (env_string rt v)).
Proof.
  apply (failed_expansion_aborts_batch (sample_runtime true) handler_from_env
           [("A", VStr "1")] "VAULT_PATH_DB" (VStr "app/missing")
           [("B", VStr "2")] world_with_credentials).
  - reflexivity.
  - vm_compute. reflexivity.
  - vm_compute. reflexivity.
  - intros secrets. vm_compute. discriminate.
Defined.

Lemma keys_inter_nil (data : dict) : keys_inter data [] = [].
Proof.
  apply elem_of_nil_inv. intros k [_ Hk]%elem_of_keys_inter.
  by apply elem_of_nil in Hk.
Qed.

(** For a value that is one path, not a list of paths, [get_secret] never
    returns its failure pair: the first bundle meets an empty accumulator.
    A failing read of that path can only come out as an exception, so the
    branch of line 109, which builds the message with the key of the
    entry, is out of reach for such an entry. *)
Lemma get_secret_single_path_never_failure_pair rt self value w w' r :
  (∀ l, value ≠ VList l) ->
  get_secret rt self value w = (w', Return r) ->
  ∃ result_dict, r = SecretOk result_dict.
Proof.
  intros Hv. unfold get_secret.
  intros [(e & _ & [=])|(w1 & [] & _ & H1)]%bind_inv.
  apply bind_inv in H1 as [(e & _ & [=])|(w2 & ok & _ & H2)].
  apply bind_inv in H2 as [(e & _ & [=])|(w3 & [] & _ & H3)].
  apply bind_inv in H3 as [(e & _ & [=])|(w4 & client & _ & H4)].
  apply bind_inv in H4 as [(e & _ & [=])|(w5 & c & _ & H5)].
  apply bind_inv in H5 as [(e & _ & [=])|(w6 & [] & _ & H6)].
  assert (paths_of value = [value]) as Hpaths.
  { destruct value; try done. by destruct (Hv l). }
  rewrite Hpaths in H6. simpl in H6.
  apply bind_inv in H6 as [(e & _ & [=])|(w7 & data & _ & H7)].
  rewrite keys_inter_nil in H7. simpl in H7. injection H7 as _ <-.
  by eexists.
Qed.

(** C8 on a batch whose entry [VAULT_PATH_DB] names a path that cannot be
    read.  The batch does stop there: [A], written before, stays and [B]
    is not written.  But what comes out of [_set_environments] is not the
    exception of line 109 that names the entry: with the logger bound it
    is the exception of the read itself, and as the file stands it is the
    [NameError] of the first line of [get_secret]; neither names
    [VAULT_PATH_DB]. *)
Lemma failed_expansion_as_written :
  let env := [("A", VStr "1"); ("VAULT_PATH_DB", VStr "app/missing");
              ("B", VStr "2")] in
  let bound := _set_environments (sample_runtime true) handler_from_env env
                 world_with_credentials in
  let unbound := _set_environments (sample_runtime false) handler_from_env
                   env world_with_credentials in
  bound.2 = Raise (HvacError "InvalidPath")
  ∧ unbound.2 = Raise (NameError "logger")
  ∧ bound.2
    ≠ Raise (Exception (MsgVaultPathCannotRetrieve "VAULT_PATH_DB"
                          (VStr "app/missing")))
  ∧ ¬ (∃ e, bound.2 = Raise e ∧ exn_names_key e "VAULT_PATH_DB")
  ∧ ¬ (∃ e, unbound.2 = Raise e ∧ exn_names_key e "VAULT_PATH_DB")
  ∧ environ bound.1 !! "A" = Some "1"
  ∧ environ bound.1 !! "B" = None
  ∧ environ unbound.1 !! "A" = Some "1"
  ∧ environ unbound.1 !! "B" = None.
Proof.
  repeat split; try by vm_compute.
  - intros (e & He & Hn). vm_compute in He. injection He as <-. exact Hn.
  - intros (e & He & Hn). vm_compute in He. injection He as <-. exact Hn.
Qed.

(** ** get_config_path *)

Lemma environ_getitem_preserves R `{!PreOrder R} k :
  preserves R (environ_getitem k).
Proof.
  unfold environ_getitem.
  apply preserves_bind; [exact _ | pres | intros [s|]; pres].
Qed.

Lemma fetch_config_keeps rt self :
  preserves keeps_environ (fetch_config rt self).
Proof.
  unfold fetch_config.
  apply preserves_bind;
    [exact _ | apply environ_getitem_preserves; exact _ |].
  intros path.
  apply preserves_bind; [exact _ | apply get_secret_keeps |].
  intros [config|dup]; [apply set_environments_keeps | pres].
Qed.

(** On a host that binds the logger, [get_config_path] sets [APPNAME]
    first, and whatever happens afterwards the name still holds the
    program name when the call is over. *)
Lemma get_config_path_sets_appname rt self argv0 rest w w' r :
  logger_bound rt = true ->
  sys_argv rt = argv0 :: rest ->
  valid_env_value (appname rt argv0) = true ->
  get_config_path rt self w = (w', r) ->
  environ w' !! "APPNAME" = Some (appname rt argv0).
Proof.
  intros Hlog Hargv Hval. unfold get_config_path, logger_call.
  rewrite Hlog, Hargv. erewrite bind_Return by done.
  unfold bind at 1. unfold environ_setitem at 1.
  change (valid_env_name "APPNAME") with true. rewrite Hval. simpl.
  set (w1 := mkWorld _ _).
  assert (environ w1 !! "APPNAME" = Some (appname rt argv0)) as Hset
    by apply lookup_insert_eq.
  intros Hrun. cut (keeps_environ w1 w').
  { intros Hk. by eapply lookup_weaken. }
  revert Hrun. generalize w1. clear. intros w. unfold bind at 1.
  unfold environ_contains at 1.
  destruct (bool_decide (is_Some (environ w !! "DECONFPATH"))) eqn:E.
  { apply fetch_config_keeps. }
  apply bool_decide_eq_false in E. rewrite <-eq_None_not_Some in E.
  intros [(e & He & _)|(w2 & has_env & [= <- <-] & H2)]%bind_inv;
    [by inversion He|].
  destruct (bool_decide _); [|by inversion H2].
  apply bind_inv in H2 as [(e & He & _)|(w3 & e & He & H3)].
  { eapply environ_getitem_preserves; [exact _ | exact He]. }
  assert (w3 = w) as ->.
  { unfold environ_getitem, bind, environ_get in He.
    destruct (environ w !! "env"); by inversion He. }
  apply bind_inv in H3 as [(e' & He' & _)|(w4 & a & Ha & H4)].
  { eapply environ_getitem_preserves; [exact _ | exact He']. }
  assert (w4 = w) as ->.
  { unfold environ_getitem, bind, environ_get in Ha.
    destruct (environ w !! "APPNAME"); by inversion Ha. }
  apply bind_inv in H4 as [(e' & He' & _)|(w5 & [] & H5 & H6)].
  - unfold environ_setitem in He'. destruct (_ && _); by inversion He'.
  - etrans; [|by eapply fetch_config_keeps].
    unfold environ_setitem in H5. destruct (_ && _); [|by inversion H5].
    injection H5 as <-.
    unfold keeps_environ. simpl. by apply insert_subseteq.
Qed.

(** C10 on the file as it stands: the first statement of
    [get_config_path] is the log call on the unbound name [logger], so the
    call raises [NameError] and [APPNAME] is not set; on a host that binds
    the name, [APPNAME] is set although no configuration path can be
    determined. *)
Lemma get_config_path_as_written :
  get_config_path (sample_runtime false) handler_from_env
    world_with_credentials
  = (world_with_credentials, Raise (NameError "logger"))
  ∧ environ world_with_credentials !! "APPNAME" = None
  ∧ (get_config_path (sample_runtime true) handler_from_env
       world_with_credentials).2
    = Raise (Exception MsgNoConfigPath)
  ∧ environ (get_config_path (sample_runtime true) handler_from_env
               world_with_credentials).1 !! "APPNAME"
    = Some "LOADER".
Proof. repeat split; by vm_compute. Qed.

(** * Further properties *)

(** ** Loops over items *)

Lemma environ_setitem_assignable kv w :
  assignable kv ->
  ∃ s, kv.2 = VStr s
       ∧ environ_setitem kv.1 kv.2 w
         = (mkWorld (<[kv.1 := s]> (environ w)) (trace w), Return tt).
Proof.
  intros (s & Hs & Hn & Hv). exists s. split; [done|].
  unfold environ_setitem. by rewrite Hs, Hn, Hv.
Qed.

Lemma environ_setitem_not_str k v w :
  ¬ is_str v -> environ_setitem k v w = (w, Raise TypeError).
Proof.
  intros Hv. unfold environ_setitem.
  destruct v; try done. destruct Hv. by eexists.
Qed.

(** A successful run of the write loop of [read_path]. *)
Lemma setitem_loop_success results w w' :
  for_each (fun kv => environ_setitem kv.1 kv.2) results w = (w', Return tt) ->
  trace w' = trace w
  ∧ Forall assignable results
  ∧ (∀ k, k ∉ keys results -> environ w' !! k = environ w !! k)
  ∧ (∀ k, k ∈ keys results ->
          ∃ s, (k, VStr s) ∈ results ∧ environ w' !! k = Some s).
Proof.
  revert w. induction results as [|[k0 v0] results IH]; intros w; simpl.
  - intros [= <-]. split; [done|]. split; [done|]. split; [done|].
    by intros k ?%elem_of_nil.
  - intros [(e & _ & [=])|(w1 & [] & H1 & H2)]%bind_inv.
    unfold environ_setitem in H1. simpl in H1.
    destruct v0 as [s| | | | |]; try by inversion H1.
    destruct (valid_env_name k0 && valid_env_value s) eqn:Hval;
      [|by inversion H1].
    apply andb_true_iff in Hval as [Hn Hv]. injection H1 as <-.
    apply IH in H2 as (Htr & Hall & Hout & Hin). simpl in *.
    split; [done|]. split; [constructor; [by exists s | done]|].
    split.
    + intros k [Hne Hk]%not_elem_of_cons. rewrite (Hout k Hk).
      by rewrite lookup_insert_ne.
    + intros k Hk. destruct (decide (k ∈ keys results)) as [Hk'|Hk'].
      * destruct (Hin k Hk') as (s' & Hs' & Hl). exists s'.
        split; [by right | done].
      * apply elem_of_cons in Hk as [->|Hk]; [|done].
        exists s. split; [by left|]. rewrite (Hout k0 Hk').
        simpl. by rewrite lookup_insert_eq.
Qed.

(** The write loop of [read_path] runs through assignable items. *)
Lemma setitem_loop_total results w :
  Forall assignable results ->
  ∃ w', for_each (fun kv => environ_setitem kv.1 kv.2) results w
        = (w', Return tt).
Proof.
  intros Hall. revert w. induction Hall as [|kv results Hkv Hall IH];
    intros w; simpl.
  - by eexists.
  - destruct (environ_setitem_assignable kv w Hkv) as (s & _ & Hset).
    erewrite bind_Return by exact Hset. apply IH.
Qed.

(** The loop over the secrets of an expanded path runs through assignable
    secrets whose names are free and distinct. *)
Lemma write_secrets_total key value secrets w :
  Forall assignable secrets ->
  NoDup (keys secrets) ->
  (∀ k, k ∈ keys secrets -> environ w !! k = None) ->
  ∃ w', for_each (write_secret key value) secrets w = (w', Return tt).
Proof.
  intros Hall. revert w. induction Hall as [|kv secrets Hkv Hall IH];
    intros w Hnd Hfree; simpl.
  - by eexists.
  - apply NoDup_cons in Hnd as [Hk Hnd].
    destruct (environ_setitem_assignable kv w Hkv) as (s & Hs & Hset).
    erewrite bind_Return; last first.
    { unfold write_secret, bind, environ_contains.
      rewrite bool_decide_eq_false_2; [exact Hset|].
      rewrite (Hfree kv.1) by left. by intros [? [=]]. }
    apply IH; [done|]. intros k Hin. simpl.
    rewrite lookup_insert_ne; [apply Hfree; by right|].
    intros <-. done.
Qed.

(** ** _set_environments *)

Lemma marker_part_keeps rt self key value :
  preserves keeps_environ
    (if String.prefix "VAULT_PATH_" key
     then expand_marker_entry rt self key value else ret tt).
Proof. destruct (String.prefix _ _); [apply expand_marker_entry_keeps | pres]. Qed.

Lemma set_plain_entry_total rt key value w :
  storable rt (key, value) ->
  environ w !! key = None ->
  set_plain_entry rt key value w
  = (mkWorld (<[key := env_string rt value]> (environ w)) (trace w),
     Return tt).
Proof.
  intros [Hn Hv] Hfree. simpl in Hn, Hv.
  unfold set_plain_entry, except_TypeError, bind, environ_contains.
  rewrite bool_decide_eq_false_2 by (rewrite Hfree; by intros [? [=]]).
  simpl. unfold environ_setitem.
  destruct value; simpl in *; by rewrite Hn, Hv.
Qed.

Lemma environ_with_cons rt k0 v0 d m k :
  k0 ∉ keys d ->
  environ_with rt d (<[k0 := env_string rt v0]> m) k
  = environ_with rt ((k0, v0) :: d) m k.
Proof.
  intros Hk0. unfold environ_with. simpl.
  destruct (decide (k = k0)) as [->|Hne].
  - apply dict_get_None in Hk0. rewrite Hk0. apply lookup_insert_eq.
  - destruct (dict_get k d); [done|]. by apply lookup_insert_ne.
Qed.

(** X1. [_set_environments] never changes or removes a name that is set:
    whatever the configuration, and whether the call returns or raises, the
    environment it leaves extends the one it found. *)
Theorem set_environments_never_overwrites rt self env w :
  environ w ⊆ environ (_set_environments rt self env w).1.
Proof.
  destruct (_set_environments rt self env w) as [w' r] eqn:E.
  by apply (set_environments_keeps rt self env w w' r).
Qed.

(** A successful [_set_environments] found every key of the configuration
    free. *)
Lemma set_environments_success_fresh rt self env w w' :
  _set_environments rt self env w = (w', Return tt) ->
  ∀ k, k ∈ keys env -> environ w !! k = None.
Proof.
  revert w. unfold _set_environments.
  induction env as [|[k0 v0] env IH]; intros w; simpl.
  - by intros _ k ?%elem_of_nil.
  - intros [(e & _ & [=])|(w1 & [] & H1 & H2)]%bind_inv k Hk.
    assert (keeps_environ w w1) as Hkeep
      by (by eapply set_environment_entry_keeps).
    apply elem_of_cons in Hk as [->|Hk].
    + unfold set_environment_entry in H1.
      apply bind_inv in H1 as [(e & _ & [=])|(wm & [] & Hm & Hp)].
      apply set_plain_entry_success in Hp as [Hfree _].
      apply marker_part_keeps in Hm.
      by eapply lookup_weaken_None.
    + eapply lookup_weaken_None; [|exact Hkeep]. by eapply IH.
Qed.

(** X2. [_set_environments] returns normally only when no key of the
    configuration was a name of the environment before the call; every key
    then holds its value, a value that is not a [str] as its JSON text. *)
Theorem set_environments_returns_only_on_fresh_keys rt self env w w' :
  _set_environments rt self env w = (w', Return tt) ->
  (∀ k, k ∈ keys env -> environ w !! k = None)
  ∧ (∀ k v, (k, v) ∈ env -> environ w' !! k = Some (env_string rt v)).
Proof.
  intros Hrun. split.
  - by eapply set_environments_success_fresh.
  - by eapply set_environments_success.
Qed.

Lemma set_environments_returns_only_on_fresh_keys_witness :
  let rt := sample_runtime false in
  let env := [("A", VStr "1"); ("DEBUG", VBool true)] in
  let w' := (_set_environments rt handler_from_env env
               world_with_credentials).1 in
  (∀ k, k ∈ keys env -> environ world_with_credentials !! k = None)
  ∧ (∀ k v, (k, v) ∈ env -> environ w' !! k = Some (env_string rt v)).
Proof.
  apply (set_environments_returns_only_on_fresh_keys (sample_runtime false)
           handler_from_env [("A", VStr "1"); ("DEBUG", VBool true)]
           world_with_credentials).
  vm_compute. reflexivity.
Defined.

(** X3. A configuration without [VAULT_PATH_] keys, whose keys are free in
    the environment and acceptable to [putenv], is written completely: the
    call returns, prints nothing, and the environment is the old one with
    every entry added, strings as they are and other values as their JSON
    text. *)
Theorem set_environments_writes_plain_batch rt self env w :
  Forall (fun kv => String.prefix "VAULT_PATH_" kv.1 = false) env ->
  Forall (storable rt) env ->
  NoDup (keys env) ->
  (∀ k, k ∈ keys env -> environ w !! k = None) ->
  ∃ w',
    _set_environments rt self env w = (w', Return tt)
    ∧ trace w' = trace w
    ∧ ∀ k, environ w' !! k = environ_with rt env (environ w) k.
Proof.
  unfold _set_environments. intros Hplain. revert w.
  induction Hplain as [|[k0 v0] env Hk0 Hplain IH];
    intros w Hst Hnd Hfree; simpl.
  - by eexists.
  - apply Forall_cons in Hst as [Hst0 Hst].
    apply NoDup_cons in Hnd as [Hnk Hnd].
    simpl in Hk0.
    erewrite bind_Return; last first.
    { unfold set_environment_entry. rewrite Hk0.
      erewrite (bind_Return (ret tt)) by done.
      apply set_plain_entry_total; [done|]. apply Hfree. left. }
    destruct (IH (mkWorld (<[k0 := env_string rt v0]> (environ w)) (trace w))
                Hst Hnd) as (w' & Hrun & Htr & Hlook).
    { intros k Hk. simpl. rewrite lookup_insert_ne; [apply Hfree; by right|].
      by intros <-. }
    exists w'. split; [done|]. split; [done|].
    intros k. rewrite Hlook. simpl. by apply environ_with_cons.
Qed.

Lemma set_environments_writes_plain_batch_witness :
  let rt := sample_runtime false in
  let env := [("A", VStr "1"); ("DEBUG", VBool true); ("RETRIES", VInt 3)] in
  ∃ w',
    _set_environments rt handler_from_env env world_with_credentials
    = (w', Return tt)
    ∧ trace w' = trace world_with_credentials
    ∧ ∀ k, environ w' !! k
           = environ_with rt env (environ world_with_credentials) k.
Proof.
  apply (set_environments_writes_plain_batch (sample_runtime false)
           handler_from_env
           [("A", VStr "1"); ("DEBUG", VBool true); ("RETRIES", VInt 3)]
           world_with_credentials).
  - repeat constructor.
  - repeat constructor.
  - apply (bool_decide_unpack _). vm_compute. exact I.
  - intros k Hk. simpl in Hk.
    repeat (apply elem_of_cons in Hk as [->|Hk]; [by vm_compute|]).
    by apply elem_of_nil in Hk.
Defined.

(** X4. The batch stops at the first plain entry whose key is already a
    name of the environment, be it from before the call or from an earlier
    entry of the batch: the call prints the two values, raises the
    DUPLICATED exception for that key, and leaves the environment as the
    earlier entries made it; the later entries are not looked at. *)
Theorem set_environments_stops_at_duplicate
    rt self pre key value post old w w0 :
  _set_environments rt self pre w = (w0, Return tt) ->
  String.prefix "VAULT_PATH_" key = false ->
  environ w0 !! key = Some old ->
  _set_environments rt self (pre ++ (key, value) :: post) w
  = (mkWorld (environ w0) (EvPrintDuplicated key old value :: trace w0),
     Raise (Exception (MsgDuplicated key))).
Proof.
  intros Hpre Hplain Hold. unfold _set_environments.
  rewrite for_each_app. erewrite bind_Return by exact Hpre. simpl.
  erewrite bind_Raise; [done|].
  by apply set_environment_entry_duplicate.
Qed.

Lemma set_environments_stops_at_duplicate_witness :
  let rt := sample_runtime false in
  let w0 := (_set_environments rt handler_from_env [("A", VStr "1")]
               world_with_credentials).1 in
  _set_environments rt handler_from_env
    ([("A", VStr "1")] ++ ("role_id", VStr "x") :: [("B", VStr "2")])
    world_with_credentials
  = (mkWorld (environ w0)
       (EvPrintDuplicated "role_id" "r" (VStr "x") :: trace w0),
     Raise (Exception (MsgDuplicated "role_id"))).
Proof.
  apply (set_environments_stops_at_duplicate (sample_runtime false)
           handler_from_env [("A", VStr "1")] "role_id" (VStr "x")
           [("B", VStr "2")] "r" world_with_credentials).
  - vm_compute. reflexivity.
  - reflexivity.
  - vm_compute. reflexivity.
Defined.

(** The expansion of a marker entry up to one of its secrets: the secrets
    before it are written, and an exception at that secret ends the
    expansion. *)
Lemma expand_marker_entry_prefix rt self key value s1 kv s2 w0 w1 :
  get_secret rt self value w0 = (w1, Return (SecretOk (s1 ++ kv :: s2))) ->
  Forall assignable s1 ->
  NoDup (keys s1) ->
  (∀ k, k ∈ keys s1 -> environ w0 !! k = None) ->
  ∃ w2,
    (∀ k, environ w2 !! k = environ_with rt s1 (environ w0) k)
    ∧ ∀ e, write_secret key value kv w2 = (w2, Raise e) ->
           expand_marker_entry rt self key value w0 = (w2, Raise e).
Proof.
  intros Hget Hall Hnd Hfree.
  assert (environ w1 = environ w0) as Henv
    by (by eapply get_secret_same_environ).
  destruct (write_secrets_total key value s1 w1 Hall Hnd) as (w2 & Hrun).
  { intros k Hk. rewrite Henv. by apply Hfree. }
  exists w2. split.
  - intros k. apply (write_secrets_success rt) in Hrun as (_ & _ & Hlook).
    rewrite Hlook. unfold environ_with. by rewrite Henv.
  - intros e He. unfold expand_marker_entry.
    erewrite bind_Return by exact Hget. cbv beta iota.
    rewrite for_each_app. erewrite bind_Return by exact Hrun. simpl.
    by erewrite bind_Raise.
Qed.

Lemma set_environments_marker_raises rt self pre key value post w w0 w2 e :
  _set_environments rt self pre w = (w0, Return tt) ->
  String.prefix "VAULT_PATH_" key = true ->
  expand_marker_entry rt self key value w0 = (w2, Raise e) ->
  _set_environments rt self (pre ++ (key, value) :: post) w = (w2, Raise e).
Proof.
  intros Hpre Hp He. unfold _set_environments. rewrite for_each_app.
  erewrite bind_Return by exact Hpre. simpl.
  erewrite bind_Raise; [done|].
  unfold set_environment_entry. rewrite Hp. by erewrite bind_Raise.
Qed.

(** X5. When a secret of an expanded [VAULT_PATH_] entry has the name of
    something already set in the environment, [_set_environments] raises
    the exception that names the entry, its path and that secret.  The
    secrets of the path that came before it have been written and stay;
    the colliding name keeps its value and nothing after it is written. *)
Theorem set_environments_secret_collision
    rt self pre key value post s1 k v s2 w w0 w1 :
  _set_environments rt self pre w = (w0, Return tt) ->
  String.prefix "VAULT_PATH_" key = true ->
  get_secret rt self value w0
  = (w1, Return (SecretOk (s1 ++ (k, v) :: s2))) ->
  Forall assignable s1 ->
  NoDup (keys s1) ->
  (∀ k', k' ∈ keys s1 -> environ w0 !! k' = None) ->
  is_Some (environ w0 !! k) ->
  ∃ w',
    _set_environments rt self (pre ++ (key, value) :: post) w
    = (w', Raise (Exception (MsgVaultPathDuplicated key value k)))
    ∧ ∀ k', environ w' !! k' = environ_with rt s1 (environ w0) k'.
Proof.
  intros Hpre Hp Hget Hall Hnd Hfree Hk.
  destruct (expand_marker_entry_prefix rt self key value s1 (k, v) s2 w0 w1
              Hget Hall Hnd Hfree) as (w2 & Hlook & Hexp).
  exists w2. split; [|done].
  eapply set_environments_marker_raises; [done..|]. apply Hexp.
  unfold write_secret, bind, environ_contains. simpl.
  rewrite bool_decide_eq_true_2; [done|].
  rewrite Hlook. unfold environ_with.
  destruct (dict_get k s1); [by eexists | done].
Qed.

Lemma set_environments_secret_collision_witness :
  let rt := sample_runtime true in
  let w0 := (_set_environments rt handler_from_env [("DB_PASS", VStr "mine")]
               world_with_credentials).1 in
  ∃ w',
    _set_environments rt handler_from_env
      ([("DB_PASS", VStr "mine")] ++ ("VAULT_PATH_DB", VStr "app/db")
       :: [("B", VStr "2")]) world_with_credentials
    = (w', Raise (Exception (MsgVaultPathDuplicated "VAULT_PATH_DB"
                               (VStr "app/db") "DB_PASS")))
    ∧ ∀ k', environ w' !! k'
            = environ_with rt [("DB_USER", VStr "a")] (environ w0) k'.
Proof.
  apply (set_environments_secret_collision (sample_runtime true)
           handler_from_env [("DB_PASS", VStr "mine")] "VAULT_PATH_DB"
           (VStr "app/db") [("B", VStr "2")] [("DB_USER", VStr "a")]
           "DB_PASS" (VStr "b") [] world_with_credentials _
           (get_secret (sample_runtime true) handler_from_env (VStr "app/db")
              (_set_environments (sample_runtime true) handler_from_env
                 [("DB_PASS", VStr "mine")] world_with_credentials).1).1).
  - vm_compute. reflexivity.
  - reflexivity.
  - vm_compute. reflexivity.
  - repeat constructor. by exists "a".
  - apply (bool_decide_unpack _). vm_compute. exact I.
  - intros k' Hk. apply list_elem_of_singleton in Hk as ->. by vm_compute.
  - vm_compute. by eexists.
Defined.

(** X6. A secret of an expanded [VAULT_PATH_] entry that is not a [str]
    makes [_set_environments] raise [TypeError]: the assignment of line
    103 lies outside the [try] of lines 111-121, so the value is not
    serialised as the value of the entry itself would be.  The secrets
    before it have been written and stay. *)
Theorem set_environments_secret_not_str
    rt self pre key value post s1 k v s2 w w0 w1 :
  _set_environments rt self pre w = (w0, Return tt) ->
  String.prefix "VAULT_PATH_" key = true ->
  get_secret rt self value w0
  = (w1, Return (SecretOk (s1 ++ (k, v) :: s2))) ->
  Forall assignable s1 ->
  NoDup (keys (s1 ++ [(k, v)])) ->
  (∀ k', k' ∈ keys (s1 ++ [(k, v)]) -> environ w0 !! k' = None) ->
  ¬ is_str v ->
  ∃ w',
    _set_environments rt self (pre ++ (key, value) :: post) w
    = (w', Raise TypeError)
    ∧ ∀ k', environ w' !! k' = environ_with rt s1 (environ w0) k'.
Proof.
  intros Hpre Hp Hget Hall Hnd Hfree Hv.
  rewrite keys_app in Hnd, Hfree. apply NoDup_app in Hnd as (Hnd & Hk & _).
  destruct (expand_marker_entry_prefix rt self key value s1 (k, v) s2 w0 w1
              Hget Hall Hnd) as (w2 & Hlook & Hexp).
  { intros k' Hk'. apply Hfree. apply elem_of_app. by left. }
  exists w2. split; [|done].
  eapply set_environments_marker_raises; [done..|]. apply Hexp.
  unfold write_secret, bind, environ_contains. simpl.
  rewrite bool_decide_eq_false_2.
  - simpl. by apply environ_setitem_not_str.
  - rewrite Hlook. unfold environ_with.
    assert (k ∉ keys s1) as Hk1.
    { intros Hin. apply (Hk k Hin). simpl. left. }
    apply dict_get_None in Hk1. rewrite Hk1.
    rewrite Hfree; [by intros [? [=]]|]. apply elem_of_app. right.
    simpl. left.
Qed.

Lemma set_environments_secret_not_str_witness :
  let rt := typed_runtime true in
  ∃ w',
    _set_environments rt handler_from_env
      ([] ++ ("VAULT_PATH_APP", VStr "app/mixed") :: [("B", VStr "2")])
      world_with_credentials
    = (w', Raise TypeError)
    ∧ ∀ k', environ w' !! k'
            = environ_with rt [("HOST", VStr "h")]
                (environ world_with_credentials) k'.
Proof.
  apply (set_environments_secret_not_str (typed_runtime true)
           handler_from_env [] "VAULT_PATH_APP" (VStr "app/mixed")
           [("B", VStr "2")] [("HOST", VStr "h")] "PORT" (VInt 5432) []
           world_with_credentials world_with_credentials
           (get_secret (typed_runtime true) handler_from_env
              (VStr "app/mixed") world_with_credentials).1).
  - reflexivity.
  - reflexivity.
  - vm_compute. reflexivity.
  - repeat constructor. by exists "h".
  - apply (bool_decide_unpack _). vm_compute. exact I.
  - intros k' Hk. simpl in Hk.
    repeat (apply elem_of_cons in Hk as [->|Hk]; [by vm_compute|]).
    by apply elem_of_nil in Hk.
  - intros [s [=]].
Defined.

(** ** read_path and get_secret *)

(** [read_path] with the write to the environment is [read_path] without
    it, followed by the write loop. *)
Lemma read_path_environ_split rt self path verify w :
  read_path rt self path true verify w
  = (do results <- read_path rt self path false verify;
     for_each (fun kv => environ_setitem kv.1 kv.2) results ;;
     ret results) w.
Proof.
  unfold read_path, bind, ret.
  repeat (case_match; simplify_eq; try done).
Qed.

Lemma setitem_loop_same_trace results w w' r :
  for_each (fun kv => environ_setitem kv.1 kv.2) results w = (w', r) ->
  trace w' = trace w.
Proof.
  revert w. induction results as [|[k v] results IH]; intros w; simpl.
  - by intros [= <- _].
  - intros [(e & He & _)|(w1 & [] & H1 & H2)]%bind_inv.
    + unfold environ_setitem in He. simpl in He.
      destruct v; try by inversion He.
      destruct (_ && _); by inversion He.
    + rewrite (IH _ H2). unfold environ_setitem in H1. simpl in H1.
      destruct v; try by inversion H1.
      destruct (_ && _); by inversion H1.
Qed.

Lemma environ_with_assignable rt results (m m' : gmap string string) :
  NoDup (keys results) ->
  (∀ k, k ∉ keys results -> m' !! k = m !! k) ->
  (∀ k, k ∈ keys results -> ∃ s, (k, VStr s) ∈ results ∧ m' !! k = Some s) ->
  ∀ k, m' !! k = environ_with rt results m k.
Proof.
  intros Hnd Hout Hin k. unfold environ_with.
  destruct (decide (k ∈ keys results)) as [Hk|Hk].
  - destruct (Hin k Hk) as (s & Hs & ->).
    apply dict_get_Some in Hs; [|done]. by rewrite Hs.
  - rewrite (Hout k Hk). apply dict_get_None in Hk. by rewrite Hk.
Qed.

(** X7. On a host that binds the logger, [get_secret] merges bundles with
    pairwise disjoint keys like [read_path] does: it returns the success
    flag with their union, in path order, after one login without TLS
    verification and one read per path, and leaves the environment
    alone. *)
Theorem get_secret_merges_disjoint_bundles
    rt self path paths bundles token w :
  logger_bound rt = true ->
  credentials_in_env w ->
  hvac_login rt (url self) (VerifyBool false) (role_id self) (secret_id self)
  = LoginToken token ->
  truthy token = true ->
  paths_of path = paths ->
  Forall2 (fun p b =>
             hvac_read rt (mkClient (url self) (VerifyBool false) token) p
             = ReadData b) paths bundles ->
  disjoint_bundles bundles ->
  ∃ w',
    get_secret rt self path w = (w', Return (SecretOk (mjoin bundles)))
    ∧ environ w' = environ w
    ∧ trace w'
      = reverse (EvRead <$> paths)
        ++ EvLogin (url self) (VerifyBool false) (role_id self)
             (secret_id self)
           :: EvLog LogDeprecatedGetSecret :: trace w.
Proof.
  intros Hlog Hc Hl Ht <- HF Hd.
  assert (get_secret rt self path w
          = (after_reads (paths_of path)
               (logged_in self (VerifyBool false)
                  (mkWorld (environ w)
                     (EvLog LogDeprecatedGetSecret :: trace w))),
             Return (SecretOk (mjoin bundles)))) as ->.
  { rewrite (get_secret_logged_in _ _ _ _ _ Hlog Hc Hl Ht).
    rewrite <-(app_nil_r (paths_of path)) at 1.
    erewrite get_secret_loop_prefix by done. reflexivity. }
  eexists. split; [done|]. by split.
Qed.

Lemma get_secret_merges_disjoint_bundles_witness :
  let rt := sample_runtime true in
  let paths := [VStr "app/db"; VStr "app/cache"] in
  ∃ w',
    get_secret rt handler_from_env (VList paths) world_with_credentials
    = (w', Return (SecretOk
                     (mjoin [[("DB_USER", VStr "a"); ("DB_PASS", VStr "b")];
                             [("CACHE_HOST", VStr "h")]])))
    ∧ environ w' = environ world_with_credentials
    ∧ trace w'
      = reverse (EvRead <$> paths)
        ++ EvLogin (url handler_from_env) (VerifyBool false)
             (role_id handler_from_env) (secret_id handler_from_env)
           :: EvLog LogDeprecatedGetSecret :: trace world_with_credentials.
Proof.
  apply (get_secret_merges_disjoint_bundles (sample_runtime true)
           handler_from_env (VList [VStr "app/db"; VStr "app/cache"])
           [VStr "app/db"; VStr "app/cache"] _ (Some "tok")).
  - reflexivity.
  - split; vm_compute; eauto.
  - reflexivity.
  - reflexivity.
  - reflexivity.
  - repeat constructor.
  - apply (bool_decide_unpack _). vm_compute. exact I.
Defined.

(** X8. Reading never writes: [get_secret], and [read_path] called without
    the [environ] flag, leave [os.environ] exactly as it was, whether they
    return or raise. *)
Theorem reading_leaves_environ_alone rt self path verify w :
  environ (get_secret rt self path w).1 = environ w
  ∧ environ (read_path rt self path false verify w).1 = environ w.
Proof.
  split.
  - destruct (get_secret rt self path w) as [w' r] eqn:E.
    by apply (get_secret_same_environ rt self path w w' r).
  - destruct (read_path rt self path false verify w) as [w' r] eqn:E.
    by apply (read_path_same_environ rt self path verify w w' r).
Qed.

(** X9. When [read_path] with the [environ] flag returns, every value it
    returns is a string, every returned key is a name of the environment
    holding its value (an older value of that name is gone), and no other
    name has changed. *)
Theorem read_path_environ_postcondition rt self path verify w w' results :
  read_path rt self path true verify w = (w', Return results) ->
  Forall assignable results
  ∧ (∀ k, k ∈ keys results ->
          ∃ s, (k, VStr s) ∈ results ∧ environ w' !! k = Some s)
  ∧ (∀ k, k ∉ keys results -> environ w' !! k = environ w !! k).
Proof.
  rewrite read_path_environ_split.
  intros [(e & _ & [=])|(w1 & res & Hread & Hrest)]%bind_inv.
  apply bind_inv in Hrest as [(e & _ & [=])|(w2 & [] & Hloop & [= <- <-])].
  apply read_path_same_environ in Hread.
  apply setitem_loop_success in Hloop as (_ & Hall & Hout & Hin).
  split; [done|]. split; [done|].
  intros k Hk. rewrite (Hout k Hk). by rewrite Hread.
Qed.

Lemma read_path_environ_postcondition_witness :
  let w := env_of [("role_id", "r"); ("secret_id", "s"); ("DB_USER", "old")] in
  let run := read_path (sample_runtime false) handler_from_env
               (VStr "app/db") true (VerifyBool true) w in
  let results := [("DB_USER", VStr "a"); ("DB_PASS", VStr "b")] in
  Forall assignable results
  ∧ (∀ k, k ∈ keys results ->
          ∃ s, (k, VStr s) ∈ results ∧ environ run.1 !! k = Some s)
  ∧ (∀ k, k ∉ keys results -> environ run.1 !! k = environ w !! k).
Proof.
  apply (read_path_environ_postcondition (sample_runtime false)
           handler_from_env (VStr "app/db") (VerifyBool true)).
  vm_compute. reflexivity.
Defined.

(** X10. [read_path] with the [environ] flag stops with [TypeError] at the
    first merged value that is not a string: nothing is serialised here.
    The keys merged before it are already in the environment and stay
    there; the merged result is not returned. *)
Theorem read_path_environ_not_str
    rt self path paths bundles r1 k v r2 verify token w :
  credentials_in_env w ->
  hvac_login rt (url self) verify (role_id self) (secret_id self)
  = LoginToken token ->
  truthy token = true ->
  paths_of path = paths ->
  Forall2 (fun p b => hvac_read rt (mkClient (url self) verify token) p
                      = ReadData b) paths bundles ->
  disjoint_bundles bundles ->
  mjoin bundles = r1 ++ (k, v) :: r2 ->
  Forall assignable r1 ->
  ¬ is_str v ->
  ∃ w',
    read_path rt self path true verify w = (w', Raise TypeError)
    ∧ ∀ k', environ w' !! k' = environ_with rt r1 (environ w) k'.
Proof.
  intros Hc Hl Ht Hp HF Hd Hj Hall Hv.
  rewrite read_path_environ_split.
  erewrite bind_Return by by eapply read_path_disjoint.
  rewrite Hj.
  destruct (setitem_loop_total r1
              (after_reads paths (logged_in self verify w)) Hall)
    as (w1 & Hrun).
  exists w1. split.
  - erewrite bind_Raise; [done|]. rewrite for_each_app.
    erewrite bind_Return by exact Hrun. simpl.
    erewrite bind_Raise; [done|]. by apply environ_setitem_not_str.
  - apply setitem_loop_success in Hrun as (_ & _ & Hout & Hin).
    apply environ_with_assignable; [|done..].
    unfold disjoint_bundles in Hd. rewrite Hj, keys_app in Hd.
    by apply NoDup_app in Hd as (? & _ & _).
Qed.

Lemma read_path_environ_not_str_witness :
  let rt := typed_runtime false in
  ∃ w',
    read_path rt handler_from_env (VStr "app/mixed") true (VerifyBool true)
      world_with_credentials = (w', Raise TypeError)
    ∧ ∀ k', environ w' !! k'
            = environ_with rt [("HOST", VStr "h")]
                (environ world_with_credentials) k'.
Proof.
  apply (read_path_environ_not_str (typed_runtime false) handler_from_env
           (VStr "app/mixed") [VStr "app/mixed"]
           [[("HOST", VStr "h"); ("PORT", VInt 5432)]]
           [("HOST", VStr "h")] "PORT" (VInt 5432) [] (VerifyBool true)
           (Some "tok")).
  - split; vm_compute; eauto.
  - reflexivity.
  - reflexivity.
  - reflexivity.
  - repeat constructor.
  - apply (bool_decide_unpack _). vm_compute. exact I.
  - reflexivity.
  - repeat constructor. by exists "h".
  - intros [s [=]].
Defined.

Lemma read_secret_raises rt c p e w :
  hvac_read rt c p = ReadRaises e ->
  read_secret rt c p w = (after_reads [p] w, Raise e).
Proof. intros H. unfold read_secret, bind, emit. simpl. by rewrite H. Qed.

Lemma after_reads_app ps p w :
  after_reads [p] (after_reads ps w) = after_reads (ps ++ [p]) w.
Proof.
  unfold after_reads. simpl. f_equal.
  by rewrite fmap_app, reverse_app, <-app_assoc.
Qed.

(** X11. A read that the backing store refuses ends [read_path] at once:
    the exception of the read comes out unchanged, the paths after it are
    not read, there is no second attempt, and the environment is not
    written even when the [environ] flag is set. *)
Theorem read_path_read_failure
    rt self path ps1 p ps2 bs1 e verify token flag w :
  credentials_in_env w ->
  hvac_login rt (url self) verify (role_id self) (secret_id self)
  = LoginToken token ->
  truthy token = true ->
  paths_of path = ps1 ++ p :: ps2 ->
  Forall2 (fun p b => hvac_read rt (mkClient (url self) verify token) p
                      = ReadData b) ps1 bs1 ->
  disjoint_bundles bs1 ->
  hvac_read rt (mkClient (url self) verify token) p = ReadRaises e ->
  read_path rt self path flag verify w
  = (mkWorld (environ w)
       (reverse (EvRead <$> ps1 ++ [p])
        ++ EvLogin (url self) verify (role_id self) (secret_id self)
           :: trace w),
     Raise e).
Proof.
  intros Hc Hl Ht Hp HF Hd He.
  rewrite (read_path_logged_in _ _ _ _ _ _ _ Hc Hl Ht), Hp.
  erewrite bind_Raise; [done|].
  rewrite (read_path_loop_prefix _ _ _ bs1) by done. simpl.
  erewrite bind_Raise by by apply read_secret_raises.
  by rewrite after_reads_app.
Qed.

Lemma read_path_read_failure_witness :
  read_path (sample_runtime false) handler_from_env
    (VList [VStr "app/db"; VStr "app/missing"; VStr "app/cache"]) true
    (VerifyBool true) world_with_credentials
  = (mkWorld (environ world_with_credentials)
       (reverse (EvRead <$> [VStr "app/db"] ++ [VStr "app/missing"])
        ++ EvLogin (url handler_from_env) (VerifyBool true)
             (role_id handler_from_env) (secret_id handler_from_env)
           :: trace world_with_credentials),
     Raise (HvacError "InvalidPath")).
Proof.
  apply (read_path_read_failure (sample_runtime false) handler_from_env
           _ [VStr "app/db"] (VStr "app/missing") [VStr "app/cache"]
           [[("DB_USER", VStr "a"); ("DB_PASS", VStr "b")]] _
           (VerifyBool true) (Some "tok")).
  - split; vm_compute; eauto.
  - reflexivity.
  - reflexivity.
  - reflexivity.
  - repeat constructor.
  - apply (bool_decide_unpack _). vm_compute. exact I.
  - reflexivity.
Defined.

(** X12. On a host that binds the logger and with the credentials in the
    environment, [get_secret] raises before any read when the login gives
    no usable token.  A login that raises is printed and swallowed by
    [_check_hvac_client_login], and [get_secret] then fails with
    [AttributeError] on the missing client, not with the login's own
    exception; an empty or null token gives the [ValueError] of line
    196. *)
Theorem get_secret_without_token rt self path w :
  logger_bound rt = true ->
  credentials_in_env w ->
  (∀ token,
     hvac_login rt (url self) (VerifyBool false) (role_id self)
       (secret_id self) = LoginToken token -> truthy token = false) ->
  ∃ w',
    get_secret rt self path w
    = (w', Raise
             match hvac_login rt (url self) (VerifyBool false) (role_id self)
                     (secret_id self) with
             | LoginRaises _ => AttributeError "token"
             | LoginToken _ => ValueError MsgCannotInstantiate
             end)
    ∧ environ w' = environ w
    ∧ (∀ p, EvRead p ∈ trace w' -> EvRead p ∈ trace w)
    ∧ (∀ e,
         hvac_login rt (url self) (VerifyBool false) (role_id self)
           (secret_id self) = LoginRaises e ->
         head (trace w') = Some (EvPrintAuthFailed e)).
Proof.
  intros Hlog Hc Hl.
  destruct (get_secret rt self path w) as [w' r] eqn:E.
  unfold get_secret, logger_call in E. rewrite Hlog in E.
  erewrite bind_Return in E by done.
  erewrite (bind_Return _check_env_credentials) in E
    by by apply check_env_credentials_true.
  simpl in E. erewrite (bind_Return (ret tt)) in E by done.
  unfold _check_hvac_client_login, approle_login_call in E.
  unfold bind at 1 in E. unfold bind at 1 in E. unfold emit at 1 in E.
  simpl in E.
  destruct (hvac_login rt (url self) (VerifyBool false) (role_id self)
              (secret_id self)) as [e|token] eqn:Hlogin.
  - unfold raise, bind, emit, ret, the_client in E. simpl in E.
    simplify_eq. eexists. split; [done|]. split; [done|]. split.
    + intros p Hin. simpl in Hin.
      repeat (apply elem_of_cons in Hin as [Hin|Hin]; [discriminate|]).
      exact Hin.
    + by intros e' [= ->].
  - unfold ret, bind, the_client in E. simpl in E.
    rewrite (Hl token eq_refl) in E. simpl in E. unfold raise in E.
    simplify_eq. eexists. split; [done|]. split; [done|]. split.
    + intros p Hin. simpl in Hin.
      repeat (apply elem_of_cons in Hin as [Hin|Hin]; [discriminate|]).
      exact Hin.
    + by intros e' [=].
Qed.

Lemma get_secret_without_token_witness :
  let rt := failing_login_runtime true in
  ∃ w',
    get_secret rt handler_from_env (VStr "app/db") world_with_credentials
    = (w', Raise
             match hvac_login rt (url handler_from_env) (VerifyBool false)
                     (role_id handler_from_env) (secret_id handler_from_env)
             with
             | LoginRaises _ => AttributeError "token"
             | LoginToken _ => ValueError MsgCannotInstantiate
             end)
    ∧ environ w' = environ world_with_credentials
    ∧ (∀ p, EvRead p ∈ trace w' -> EvRead p ∈ trace world_with_credentials)
    ∧ (∀ e,
         hvac_login rt (url handler_from_env) (VerifyBool false)
           (role_id handler_from_env) (secret_id handler_from_env)
         = LoginRaises e ->
         head (trace w') = Some (EvPrintAuthFailed e)).
Proof.
  apply (get_secret_without_token (failing_login_runtime true)
           handler_from_env (VStr "app/db") world_with_credentials).
  - reflexivity.
  - split; vm_compute; eauto.
  - intros token [=].
Defined.

(** X13. The credential check reads [os.environ] and nothing else: when
    [role_id] or [secret_id] is not a name of the environment, [read_path]
    raises before any login or read, for every handler, also one that
    holds both identifiers; on a host that binds the logger [get_secret]
    raises the [ValueError] of line 191 in the same way.  Neither changes
    the environment. *)
Theorem credentials_are_checked_in_environ_only
    rt self path flag verify w :
  ¬ credentials_in_env w ->
  (∃ w' e,
     read_path rt self path flag verify w = (w', Raise e)
     ∧ vault_calls (trace w') = vault_calls (trace w)
     ∧ environ w' = environ w)
  ∧ (logger_bound rt = true ->
     ∃ w',
       get_secret rt self path w
       = (w', Raise (ValueError MsgCredentialsMissing))
       ∧ vault_calls (trace w') = vault_calls (trace w)
       ∧ environ w' = environ w).
Proof.
  intros Hc. split.
  - destruct (read_path_without_env_credentials rt self path flag verify w Hc)
      as (w' & e & ? & ? & ? & _).
    by exists w', e.
  - intros Hlog. by apply get_secret_without_env_credentials.
Qed.

Lemma credentials_are_checked_in_environ_only_witness :
  let rt := sample_runtime true in
  let w := env_of [("role_id", "r")] in
  (∃ w' e,
     read_path rt handler_from_env (VStr "app/db") false (VerifyBool true) w
     = (w', Raise e)
     ∧ vault_calls (trace w') = vault_calls (trace w)
     ∧ environ w' = environ w)
  ∧ (logger_bound rt = true ->
     ∃ w',
       get_secret rt handler_from_env (VStr "app/db") w
       = (w', Raise (ValueError MsgCredentialsMissing))
       ∧ vault_calls (trace w') = vault_calls (trace w)
       ∧ environ w' = environ w).
Proof.
  apply (credentials_are_checked_in_environ_only (sample_runtime true)
           handler_from_env (VStr "app/db") false (VerifyBool true)
           (env_of [("role_id", "r")])).
  intros [_ [s Hs]]. vm_compute in Hs. discriminate.
Defined.

Lemma filter_elem_of_all (l l' : list string) :
  (∀ k, k ∈ l' -> k ∈ l) -> filter (fun k => k ∈ l) l' = l'.
Proof.
  induction l' as [|k l' IH]; intros Hsub; [done|].
  rewrite filter_cons, decide_True by (apply Hsub; left).
  rewrite IH; [done|]. intros k' Hk'. apply Hsub. by right.
Qed.

Lemma keys_inter_self (b : dict) : keys_inter b (mjoin [b]) = keys b.
Proof.
  unfold keys_inter. simpl. rewrite app_nil_r. by apply filter_elem_of_all.
Qed.

(** X14. Naming a path twice is an error: when both reads of the path
    give the same bundle and it is not empty, the second read finds every
    key already merged, so [read_path] raises and returns nothing; with
    the logger bound it has logged the keys of the bundle, each once, in
    an order that is not fixed. *)
Theorem read_path_same_path_twice rt self p b verify token flag w :
  credentials_in_env w ->
  hvac_login rt (url self) verify (role_id self) (secret_id self)
  = LoginToken token ->
  truthy token = true ->
  hvac_read rt (mkClient (url self) verify token) p = ReadData b ->
  NoDup (keys b) ->
  b ≠ [] ->
  ∃ w' e,
    read_path rt self (VList [p; p]) flag verify w = (w', Raise e)
    ∧ environ w' = environ w
    ∧ (logger_bound rt = true ->
       e = BareRaise
       ∧ ∃ dup,
           head (trace w') = Some (EvLog (LogDuplicateKeysFetched dup))
           ∧ dup ≡ₚ keys b).
Proof.
  intros Hc Hl Ht Hb Hnd Hne.
  assert (keys_inter b (mjoin [b]) ≠ []) as Hi.
  { rewrite keys_inter_self. destruct b; [done|]. by destruct p0. }
  rewrite (read_path_conflict rt self (VList [p; p]) [p] p [] [b] b verify
             token flag w Hc Hl Ht eq_refl); [|by repeat constructor|done| |done].
  - rewrite keys_inter_self. simpl.
    destruct (logger_bound rt); eexists _, _; (split; [done|]);
      (split; [done|]); [|by intros [=]].
    intros _. split; [done|]. by exists (keys b).
  - unfold disjoint_bundles. simpl. by rewrite app_nil_r.
Qed.

Lemma read_path_same_path_twice_witness :
  ∃ w' e,
    read_path (sample_runtime true) handler_from_env
      (VList [VStr "app/db"; VStr "app/db"]) false (VerifyBool true)
      world_with_credentials = (w', Raise e)
    ∧ environ w' = environ world_with_credentials
    ∧ (logger_bound (sample_runtime true) = true ->
       e = BareRaise
       ∧ ∃ dup,
           head (trace w') = Some (EvLog (LogDuplicateKeysFetched dup))
           ∧ dup ≡ₚ keys [("DB_USER", VStr "a"); ("DB_PASS", VStr "b")]).
Proof.
  apply (read_path_same_path_twice (sample_runtime true) handler_from_env
           (VStr "app/db") [("DB_USER", VStr "a"); ("DB_PASS", VStr "b")]
           (VerifyBool true) (Some "tok")).
  - split; vm_compute; eauto.
  - reflexivity.
  - reflexivity.
  - reflexivity.
  - apply (bool_decide_unpack _). vm_compute. exact I.
  - discriminate.
Defined.

(** X15. A [read_path] over disjoint bundles talks to the backing store in
    one fixed way: one login with the caller's TLS policy, then one read
    per path in the order given, and nothing else, whether or not the
    write to the environment that may follow succeeds. *)
Theorem read_path_call_sequence
    rt self path paths bundles verify token flag w :
  credentials_in_env w ->
  hvac_login rt (url self) verify (role_id self) (secret_id self)
  = LoginToken token ->
  truthy token = true ->
  paths_of path = paths ->
  Forall2 (fun p b => hvac_read rt (mkClient (url self) verify token) p
                      = ReadData b) paths bundles ->
  disjoint_bundles bundles ->
  trace (read_path rt self path flag verify w).1
  = reverse (EvRead <$> paths)
    ++ EvLogin (url self) verify (role_id self) (secret_id self) :: trace w.
Proof.
  intros Hc Hl Ht Hp HF Hd.
  pose proof (read_path_disjoint rt self path paths bundles verify token w
                Hc Hl Ht Hp HF Hd) as Hrun.
  destruct flag; [|by rewrite Hrun].
  rewrite read_path_environ_split.
  unfold bind at 1. rewrite Hrun. unfold bind.
  destruct (for_each _ (mjoin bundles) _) as [w1 [e|[]]] eqn:E;
    apply setitem_loop_same_trace in E; simpl; by rewrite E.
Qed.

Lemma read_path_call_sequence_witness :
  trace (read_path (sample_runtime false) handler_from_env
           (VList [VStr "app/db"; VStr "app/cache"]) true (VerifyBool true)
           world_with_credentials).1
  = reverse (EvRead <$> [VStr "app/db"; VStr "app/cache"])
    ++ EvLogin (url handler_from_env) (VerifyBool true)
         (role_id handler_from_env) (secret_id handler_from_env)
       :: trace world_with_credentials.
Proof.
  apply (read_path_call_sequence (sample_runtime false) handler_from_env
           (VList [VStr "app/db"; VStr "app/cache"])
           [VStr "app/db"; VStr "app/cache"]
           [[("DB_USER", VStr "a"); ("DB_PASS", VStr "b")];
            [("CACHE_HOST", VStr "h")]] (VerifyBool true) (Some "tok")).
  - split; vm_compute; eauto.
  - reflexivity.
  - reflexivity.
  - reflexivity.
  - repeat constructor.
  - apply (bool_decide_unpack _). vm_compute. exact I.
Defined.

(** ** The constructor *)

#[local] Instance trace_grows_preorder : PreOrder trace_grows.
Proof.
  split.
  - intros w. by unfold trace_grows.
  - intros w1 w2 w3. unfold trace_grows. by etrans.
Qed.

Lemma emit_trace_grows e : preserves trace_grows (emit e).
Proof.
  intros w w' r [= <- _]. unfold trace_grows. simpl. by apply suffix_cons_r.
Qed.
#[local] Hint Resolve emit_trace_grows : pres.

Lemma logger_call_trace_grows rt m : preserves trace_grows (logger_call rt m).
Proof. unfold logger_call. pres. Qed.
#[local] Hint Resolve logger_call_trace_grows : pres.

Lemma environ_setitem_trace_grows k v :
  preserves trace_grows (environ_setitem k v).
Proof.
  intros w w' r. unfold environ_setitem, trace_grows.
  destruct v; try by intros [= <- _].
  destruct (_ && _); by intros [= <- _].
Qed.
#[local] Hint Resolve environ_setitem_trace_grows : pres.

Lemma read_secret_trace_grows rt c path :
  preserves trace_grows (read_secret rt c path).
Proof. unfold read_secret. pres. destruct (hvac_read rt c path); pres. Qed.
#[local] Hint Resolve read_secret_trace_grows : pres.

Lemma read_path_loop_trace_grows rt c paths results :
  preserves trace_grows (read_path_loop rt c paths results).
Proof.
  revert results. induction paths as [|p paths IH]; intros results; simpl; pres.
Qed.
#[local] Hint Resolve read_path_loop_trace_grows : pres.

(** X16. The constructor does not touch the environment and resolves each
    identifier once: an argument that is given and not empty is kept,
    otherwise the value the environment holds at construction is taken
    (an empty string counts as not given).  With the credentials in the
    environment, [read_path] on that handler attempts its login with
    exactly the resolved address and identifiers. *)
Theorem handler_logs_in_with_resolved_credentials
    rt url0 role_id0 secret_id0 path flag verify w :
  credentials_in_env w ->
  let self :=
    mkVaultHandler
      (if truthy role_id0 then role_id0 else environ w !! "role_id")
      (if truthy secret_id0 then secret_id0 else environ w !! "secret_id")
      (if truthy url0 then url0 else environ w !! "VAULT_ADDR") in
  init url0 role_id0 secret_id0 w = (w, Return self)
  ∧ EvLogin (url self) verify (role_id self) (secret_id self)
    ∈ trace (read_path rt self path flag verify w).1.
Proof.
  intros Hc self. split; [reflexivity|].
  destruct (read_path rt self path flag verify w) as [w' r] eqn:E.
  pose proof (check_env_credentials_true _ Hc) as Hchk.
  unfold read_path in E. rewrite (bind_Return _ _ _ _ _ Hchk) in E.
  simpl in E. rewrite (bind_Return _ _ w w tt) in E by done.
  unfold _approle_login in E.
  rewrite (bind_assoc_eval (approle_login_call rt self verify)) in E.
  unfold approle_login_call in E.
  rewrite (bind_assoc_eval (emit _)) in E.
  erewrite (bind_Return (emit _)) in E by done.
  assert (trace_grows (logged_in self verify w) w') as Hgrow.
  { revert E. apply preserves_bind; [exact _ | |].
    - destruct (hvac_login _ _ _ _ _); pres.
    - intros t. pres. }
  simpl. destruct Hgrow as [evs ->]. apply elem_of_app. right. simpl. left.
Qed.

Lemma handler_logs_in_with_resolved_credentials_witness :
  let w := env_of [("role_id", "r"); ("secret_id", "s");
                   ("VAULT_ADDR", "https://vault")] in
  let self :=
    mkVaultHandler
      (if truthy (Some "other") then Some "other" else environ w !! "role_id")
      (if truthy (Some "") then Some "" else environ w !! "secret_id")
      (if truthy None then None else environ w !! "VAULT_ADDR") in
  init None (Some "other") (Some "") w = (w, Return self)
  ∧ EvLogin (url self) (VerifyBool true) (role_id self) (secret_id self)
    ∈ trace (read_path (sample_runtime false) self (VStr "app/db") false
               (VerifyBool true) w).1.
Proof.
  apply (handler_logs_in_with_resolved_credentials (sample_runtime false)
           None (Some "other") (Some "") (VStr "app/db") false
           (VerifyBool true)
           (env_of [("role_id", "r"); ("secret_id", "s");
                    ("VAULT_ADDR", "https://vault")])).
  split; vm_compute; eauto.
Defined.

(** ** get_config_path, with the logger bound *)

(** X17. On a host that binds the logger, a call of [get_config_path]
    leaves [APPNAME] set to the name derived from [sys.argv[0]], whatever
    value the name had before and whether the call returns or raises
    later on. *)
Theorem get_config_path_leaves_appname rt self argv0 rest w :
  logger_bound rt = true ->
  sys_argv rt = argv0 :: rest ->
  valid_env_value (appname rt argv0) = true ->
  environ (get_config_path rt self w).1 !! "APPNAME"
  = Some (appname rt argv0).
Proof.
  intros Hlog Hargv Hval.
  destruct (get_config_path rt self w) as [w' r] eqn:E.
  by eapply get_config_path_sets_appname.
Qed.

Lemma get_config_path_leaves_appname_witness :
  environ (get_config_path (sample_runtime true) handler_from_env
             (env_of [("APPNAME", "old"); ("DECONFPATH", "app/missing")])).1
    !! "APPNAME"
  = Some (appname (sample_runtime true) "/opt/jobs/loader.py").
Proof.
  apply (get_config_path_leaves_appname (sample_runtime true)
           handler_from_env "/opt/jobs/loader.py" []).
  - reflexivity.
  - reflexivity.
  - reflexivity.
Defined.

(** X18. On a host that binds the logger, when the environment has neither
    [DECONFPATH] nor [env], [get_config_path] raises the exception of line
    247 without any call to the backing store; [APPNAME] is set all the
    same and nothing else changes. *)
Theorem get_config_path_without_config_path rt self argv0 rest w :
  logger_bound rt = true ->
  sys_argv rt = argv0 :: rest ->
  valid_env_value (appname rt argv0) = true ->
  environ w !! "DECONFPATH" = None ->
  environ w !! "env" = None ->
  get_config_path rt self w
  = (mkWorld (<["APPNAME" := appname rt argv0]> (environ w))
       (EvLog LogDeprecatedGetConfigPath :: trace w),
     Raise (Exception MsgNoConfigPath)).
Proof.
  intros Hlog Hargv Hval Hp He. unfold get_config_path, logger_call.
  rewrite Hlog, Hargv. erewrite bind_Return by done.
  unfold bind at 1. unfold environ_setitem at 1.
  change (valid_env_name "APPNAME") with true. rewrite Hval. simpl.
  unfold bind, environ_contains. simpl.
  rewrite lookup_insert_ne, Hp by done.
  rewrite bool_decide_eq_false_2 by (by intros [? [=]]). simpl.
  rewrite lookup_insert_ne, He by done.
  rewrite bool_decide_eq_false_2 by (by intros [? [=]]). done.
Qed.

Lemma get_config_path_without_config_path_witness :
  get_config_path (sample_runtime true) handler_from_env
    world_with_credentials
  = (mkWorld (<["APPNAME" := appname (sample_runtime true)
                               "/opt/jobs/loader.py"]>
                (environ world_with_credentials))
       (EvLog LogDeprecatedGetConfigPath :: trace world_with_credentials),
     Raise (Exception MsgNoConfigPath)).
Proof.
  apply (get_config_path_without_config_path (sample_runtime true)
           handler_from_env "/opt/jobs/loader.py" []);
    reflexivity.
Defined.

(** X19. On a host that binds the logger, when [DECONFPATH] is not set
    and [env] is, [get_config_path] derives the path
    [dataeng/config/<ENV>/<APPNAME>] from the upper-cased [env] and the
    program name, stores it under [DECONFPATH], and the name still holds
    it when the call is over, also when the path cannot be read. *)
Theorem get_config_path_derives_config_path rt self argv0 rest e w :
  logger_bound rt = true ->
  sys_argv rt = argv0 :: rest ->
  valid_env_value (appname rt argv0) = true ->
  environ w !! "DECONFPATH" = None ->
  environ w !! "env" = Some e ->
  valid_env_value
    ("dataeng/config/" +:+ str_upper rt e +:+ "/" +:+ appname rt argv0)
  = true ->
  environ (get_config_path rt self w).1 !! "DECONFPATH"
  = Some ("dataeng/config/" +:+ str_upper rt e +:+ "/" +:+ appname rt argv0).
Proof.
  intros Hlog Hargv Hval Hp He Hval'.
  destruct (get_config_path rt self w) as [w' r] eqn:E.
  unfold get_config_path, logger_call in E.
  rewrite Hlog, Hargv in E. erewrite bind_Return in E by done.
  unfold bind at 1 in E. unfold environ_setitem at 1 in E.
  change (valid_env_name "APPNAME") with true in E. rewrite Hval in E.
  simpl in E.
  unfold bind at 1 in E. unfold environ_contains at 1 in E. simpl in E.
  rewrite lookup_insert_ne, Hp in E by done.
  rewrite bool_decide_eq_false_2 in E by (by intros [? [=]]).
  unfold bind at 1 in E. unfold environ_contains at 1 in E. simpl in E.
  rewrite lookup_insert_ne, He in E by done.
  rewrite bool_decide_eq_true_2 in E by by eexists.
  unfold bind at 1 in E. unfold environ_getitem at 1 in E.
  unfold bind at 1 in E. unfold environ_get at 1 in E. simpl in E.
  rewrite lookup_insert_ne, He in E by done. simpl in E.
  unfold bind at 1 in E. unfold environ_getitem at 1 in E.
  unfold bind at 1 in E. unfold environ_get at 1 in E. simpl in E.
  rewrite lookup_insert_eq in E. simpl in E.
  unfold bind at 1 in E. unfold environ_setitem at 1 in E.
  change (valid_env_name "DECONFPATH") with true in E. rewrite Hval' in E.
  simpl in E.
  apply fetch_config_keeps in E. simpl.
  eapply lookup_weaken; [|exact E]. simpl. apply lookup_insert_eq.
Qed.

Lemma get_config_path_derives_config_path_witness :
  environ (get_config_path (sample_runtime true) handler_from_env
             (env_of [("role_id", "r"); ("secret_id", "s");
                      ("env", "prod")])).1 !! "DECONFPATH"
  = Some ("dataeng/config/" +:+ str_upper (sample_runtime true) "prod"
          +:+ "/" +:+ appname (sample_runtime true) "/opt/jobs/loader.py").
Proof.
  apply (get_config_path_derives_config_path (sample_runtime true)
           handler_from_env "/opt/jobs/loader.py" [] "prod");
    reflexivity.
Defined.

Lemma fetch_config_success rt self w w' :
  fetch_config rt self w = (w', Return tt) ->
  ∃ path config wb,
    environ w !! "DECONFPATH" = Some path
    ∧ get_secret rt self (VStr path) w = (wb, Return (SecretOk config))
    ∧ _set_environments rt self config wb = (w', Return tt).
Proof.
  unfold fetch_config.
  intros [(e & _ & [=])|(w1 & path & Hpath & Hrest)]%bind_inv.
  unfold environ_getitem, bind, environ_get in Hpath.
  destruct (environ w !! "DECONFPATH") as [p|] eqn:Hp; [|by inversion Hpath].
  unfold ret in Hpath. injection Hpath as <- <-.
  apply bind_inv in Hrest as [(e & _ & [=])|(wb & r & Hget & Hset)].
  destruct r as [config|dup]; [|by inversion Hset].
  by exists p, config, wb.
Qed.

Lemma fetch_config_tail rt self name w w' :
  environ w !! "APPNAME" = Some name ->
  fetch_config rt self w = (w', Return tt) ->
  ∃ path config wb,
    environ w !! "DECONFPATH" = Some path
    ∧ environ w' !! "APPNAME" = Some name
    ∧ environ w' !! "DECONFPATH" = Some path
    ∧ get_secret rt self (VStr path) w = (wb, Return (SecretOk config))
    ∧ ("APPNAME" ∉ keys config)
    ∧ ("DECONFPATH" ∉ keys config)
    ∧ ∀ k v, (k, v) ∈ config -> environ w' !! k = Some (env_string rt v).
Proof.
  intros Hname (path & config & wb & Hpath & Hget & Hset)%fetch_config_success.
  assert (environ wb = environ w) as Henv
    by (by eapply get_secret_same_environ).
  assert (keeps_environ wb w') as Hkeep
    by (by eapply set_environments_keeps).
  pose proof (set_environments_success_fresh _ _ _ _ _ Hset) as Hfresh.
  exists path, config, wb. split; [done|].
  split; [eapply lookup_weaken; [|exact Hkeep]; by rewrite Henv|].
  split; [eapply lookup_weaken; [|exact Hkeep]; by rewrite Henv|].
  split; [done|].
  split; [intros Hin; apply Hfresh in Hin; rewrite Henv in Hin; congruence|].
  split; [intros Hin; apply Hfresh in Hin; rewrite Henv in Hin; congruence|].
  by eapply set_environments_success.
Qed.

(** X20. What a [get_config_path] that returns has done: [APPNAME] holds
    the program name, [DECONFPATH] holds the configuration path, either
    the one it found or the one derived from [env]; the configuration
    read from that path has no key [APPNAME] or [DECONFPATH] (such a
    configuration always ends in the DUPLICATED exception), and every key
    of it is now a name of the environment holding its value. *)
Theorem get_config_path_success rt self w w' :
  get_config_path rt self w = (w', Return tt) ->
  ∃ argv0 path config wa wb,
    head (sys_argv rt) = Some argv0
    ∧ (environ w !! "DECONFPATH" = Some path
       ∨ environ w !! "DECONFPATH" = None
         ∧ ∃ e, environ w !! "env" = Some e
                ∧ path = "dataeng/config/" +:+ str_upper rt e +:+ "/"
                         +:+ appname rt argv0)
    ∧ environ w' !! "APPNAME" = Some (appname rt argv0)
    ∧ environ w' !! "DECONFPATH" = Some path
    ∧ get_secret rt self (VStr path) wa = (wb, Return (SecretOk config))
    ∧ ("APPNAME" ∉ keys config)
    ∧ ("DECONFPATH" ∉ keys config)
    ∧ ∀ k v, (k, v) ∈ config -> environ w' !! k = Some (env_string rt v).
Proof.
  unfold get_config_path.
  intros [(e & _ & [=])|(w0 & [] & Hlog & Hrest)]%bind_inv.
  assert (environ w0 = environ w) as Hw0
    by (by eapply logger_call_same_environ).
  destruct (sys_argv rt) as [|argv0 rest]; [by inversion Hrest|].
  apply bind_inv in Hrest as [(e & _ & [=])|(w1 & [] & Hset & Hrest)].
  unfold environ_setitem in Hset.
  destruct (_ && _); [|by inversion Hset]. injection Hset as <-.
  unfold bind at 1 in Hrest. unfold environ_contains at 1 in Hrest.
  simpl in Hrest. rewrite lookup_insert_ne, Hw0 in Hrest by done.
  destruct (environ w !! "DECONFPATH") as [p|] eqn:Hp.
  - rewrite bool_decide_eq_true_2 in Hrest by by eexists.
    apply (fetch_config_tail rt self (appname rt argv0)) in Hrest
      as (path & config & wb & Hpath & ? & ? & ? & ? & ? & ?);
      [|by apply lookup_insert_eq].
    simpl in Hpath. rewrite lookup_insert_ne, Hp in Hpath by done.
    injection Hpath as <-.
    eexists argv0, p, config, _, wb. split; [done|]. split; [by left|].
    done.
  - rewrite bool_decide_eq_false_2 in Hrest by (by intros [? [=]]).
    unfold bind at 1 in Hrest. unfold environ_contains at 1 in Hrest.
    simpl in Hrest. rewrite lookup_insert_ne in Hrest by done.
    destruct (environ w !! "env") as [e|] eqn:He.
    + rewrite bool_decide_eq_true_2 in Hrest by by eexists.
      unfold bind at 1 in Hrest. unfold environ_getitem at 1 in Hrest.
      unfold bind at 1 in Hrest. unfold environ_get at 1 in Hrest.
      simpl in Hrest. rewrite lookup_insert_ne, He in Hrest by done.
      simpl in Hrest.
      unfold bind at 1 in Hrest. unfold environ_getitem at 1 in Hrest.
      unfold bind at 1 in Hrest. unfold environ_get at 1 in Hrest.
      simpl in Hrest. rewrite lookup_insert_eq in Hrest. simpl in Hrest.
      apply bind_inv in Hrest as [(e' & _ & [=])|(w2 & [] & Hset & Hrest)].
      unfold environ_setitem in Hset.
      destruct (_ && _); [|by inversion Hset]. injection Hset as <-.
      apply (fetch_config_tail rt self (appname rt argv0)) in Hrest
        as (path & config & wb & Hpath & ? & ? & ? & ? & ? & ?);
        [|simpl; rewrite lookup_insert_ne by done; by apply lookup_insert_eq].
      simpl in Hpath. rewrite lookup_insert_eq in Hpath.
      injection Hpath as <-.
      eexists argv0, _, config, _, wb. split; [done|].
      split; [right; split; [done|]; by exists e|]. done.
    + rewrite bool_decide_eq_false_2 in Hrest by (by intros [? [=]]).
      by inversion Hrest.
Qed.

Lemma get_config_path_success_witness :
  let rt := sample_runtime true in
  let w := env_of [("role_id", "r"); ("secret_id", "s");
                   ("DECONFPATH", "app/cache")] in
  let w' := (get_config_path rt handler_from_env w).1 in
  ∃ argv0 path config wa wb,
    head (sys_argv rt) = Some argv0
    ∧ (environ w !! "DECONFPATH" = Some path
       ∨ environ w !! "DECONFPATH" = None
         ∧ ∃ e, environ w !! "env" = Some e
                ∧ path = "dataeng/config/" +:+ str_upper rt e +:+ "/"
                         +:+ appname rt argv0)
    ∧ environ w' !! "APPNAME" = Some (appname rt argv0)
    ∧ environ w' !! "DECONFPATH" = Some path
    ∧ get_secret rt handler_from_env (VStr path) wa
      = (wb, Return (SecretOk config))
    ∧ ("APPNAME" ∉ keys config)
    ∧ ("DECONFPATH" ∉ keys config)
    ∧ ∀ k v, (k, v) ∈ config -> environ w' !! k = Some (env_string rt v).
Proof.
  apply (get_config_path_success (sample_runtime true) handler_from_env
           (env_of [("role_id", "r"); ("secret_id", "s");
                    ("DECONFPATH", "app/cache")])).
  vm_compute. reflexivity.
Defined.

(** ** The program name *)

Lemma str_split_nonempty sep s : str_split sep s ≠ [].
Proof.
  destruct s as [|c s]; simpl; [done|].
  destruct (Ascii.eqb c sep); [done|]. by destruct (str_split sep s).
Qed.

Lemma str_split_no_sep sep s : str_has sep s = false -> str_split sep s = [s].
Proof.
  induction s as [|c s IH]; simpl; [done|].
  intros [Hc Hs]%orb_false_iff. rewrite Ascii.eqb_sym, Hc.
  by rewrite (IH Hs).
Qed.

Lemma str_split_app sep d s :
  str_split sep (d +:+ String sep s) = str_split sep d ++ str_split sep s.
Proof.
  induction d as [|c d IH]; simpl.
  - by rewrite Ascii.eqb_refl.
  - destruct (Ascii.eqb c sep); [by rewrite IH|].
    rewrite IH. pose proof (str_split_nonempty sep d) as Hne.
    by destruct (str_split sep d).
Qed.

Lemma last_item_app l1 l2 : l2 ≠ [] -> last_item (l1 ++ l2) = last_item l2.
Proof.
  intros Hne. unfold last_item.
  destruct (exists_last Hne) as (l & x & ->).
  by rewrite app_assoc, !List.last_last.
Qed.

Lemma str_remove_dot_py_suffix name :
  str_has "."%char name = false ->
  str_remove_dot_py (name +:+ ".py") = name.
Proof.
  induction name as [|c name IH]; [done|].
  intros [Hc Hs]%orb_false_iff.
  change (String c name +:+ ".py") with (String c (name +:+ ".py")).
  assert (str_remove_dot_py (String c (name +:+ ".py"))
          = String c (str_remove_dot_py (name +:+ ".py"))) as ->.
  { destruct c as [[] [] [] [] [] [] [] []]; try reflexivity.
    by vm_compute in Hc. }
  by rewrite (IH Hs).
Qed.

(** X21. For a program started as [<dir>/<name>.py], where [<name>] has
    neither a slash nor a dot, the value that [get_config_path] computes
    for [APPNAME] is the upper-cased [<name>]: the directory part and the
    extension are gone, however many directories the path has. *)
Theorem appname_of_script rt dir name :
  str_has "/"%char name = false ->
  str_has "."%char name = false ->
  appname rt (dir +:+ "/" +:+ name +:+ ".py") = str_upper rt name
  ∧ appname rt (name +:+ ".py") = str_upper rt name.
Proof.
  intros Hslash Hdot.
  assert (str_has "/"%char (name +:+ ".py") = false) as Hslash'.
  { clear Hdot. induction name as [|c name IH]; [done|].
    simpl in *. apply orb_false_iff in Hslash as [-> Hs]. by apply IH. }
  unfold appname. split.
  - change (dir +:+ "/" +:+ name +:+ ".py")
      with (dir +:+ String "/"%char (name +:+ ".py")).
    rewrite str_split_app, last_item_app by apply str_split_nonempty.
    rewrite str_split_no_sep by done.
    change (last_item [name +:+ ".py"]) with (name +:+ ".py").
    by rewrite str_remove_dot_py_suffix.
  - rewrite str_split_no_sep by done.
    change (last_item [name +:+ ".py"]) with (name +:+ ".py").
    by rewrite str_remove_dot_py_suffix.
Qed.

Lemma appname_of_script_witness :
  appname (sample_runtime true) ("/opt/jobs" +:+ "/" +:+ "loader" +:+ ".py")
  = str_upper (sample_runtime true) "loader"
  ∧ appname (sample_runtime true) ("loader" +:+ ".py")
    = str_upper (sample_runtime true) "loader".
Proof.
  apply (appname_of_script (sample_runtime true) "/opt/jobs" "loader");
    reflexivity.
Defined.

(** ** Further consequences *)

(** X22. As the file stands, with the name [logger] unbound, a
    configuration cannot get past an entry with the [VAULT_PATH_] prefix:
    the nested [get_secret] raises [NameError] at its first line, so
    [_set_environments] stops there without a login or a read, with the
    environment as the earlier entries left it. *)
Theorem set_environments_marker_as_written rt self pre key value post w w0 :
  logger_bound rt = false ->
  _set_environments rt self pre w = (w0, Return tt) ->
  String.prefix "VAULT_PATH_" key = true ->
  _set_environments rt self (pre ++ (key, value) :: post) w
  = (w0, Raise (NameError "logger")).
Proof.
  intros Hlog Hpre Hp.
  eapply set_environments_marker_raises; [done..|].
  unfold expand_marker_entry.
  erewrite bind_Raise; [done|]. by apply get_secret_logger_unbound.
Qed.

Lemma set_environments_marker_as_written_witness :
  let rt := sample_runtime false in
  _set_environments rt handler_from_env
    ([("A", VStr "1")] ++ ("VAULT_PATH_DB", VStr "app/db")
     :: [("B", VStr "2")]) world_with_credentials
  = ((_set_environments rt handler_from_env [("A", VStr "1")]
        world_with_credentials).1,
     Raise (NameError "logger")).
Proof.
  apply (set_environments_marker_as_written (sample_runtime false)
           handler_from_env [("A", VStr "1")] "VAULT_PATH_DB" (VStr "app/db")
           [("B", VStr "2")] world_with_credentials).
  - reflexivity.
  - vm_compute. reflexivity.
  - reflexivity.
Defined.

(** X23. [read_path] with the [environ] flag over disjoint bundles whose
    values are all strings that [putenv] accepts returns their union, and
    the environment afterwards is the old one with every merged key on
    top: a name that was already set now holds the secret. *)
Theorem read_path_environ_writes_union
    rt self path paths bundles verify token w :
  credentials_in_env w ->
  hvac_login rt (url self) verify (role_id self) (secret_id self)
  = LoginToken token ->
  truthy token = true ->
  paths_of path = paths ->
  Forall2 (fun p b => hvac_read rt (mkClient (url self) verify token) p
                      = ReadData b) paths bundles ->
  disjoint_bundles bundles ->
  Forall assignable (mjoin bundles) ->
  ∃ w',
    read_path rt self path true verify w = (w', Return (mjoin bundles))
    ∧ ∀ k, environ w' !! k = environ_with rt (mjoin bundles) (environ w) k.
Proof.
  intros Hc Hl Ht Hp HF Hd Hall.
  destruct (setitem_loop_total (mjoin bundles)
              (after_reads paths (logged_in self verify w)) Hall)
    as (w1 & Hrun).
  exists w1. split.
  - rewrite read_path_environ_split.
    erewrite bind_Return by by eapply read_path_disjoint.
    by erewrite bind_Return by exact Hrun.
  - apply setitem_loop_success in Hrun as (_ & _ & Hout & Hin).
    by apply environ_with_assignable.
Qed.

Lemma read_path_environ_writes_union_witness :
  let rt := sample_runtime false in
  let w := env_of [("role_id", "r"); ("secret_id", "s"); ("DB_USER", "old")] in
  let bundles := [[("DB_USER", VStr "a"); ("DB_PASS", VStr "b")];
                  [("CACHE_HOST", VStr "h")]] in
  ∃ w',
    read_path rt handler_from_env (VList [VStr "app/db"; VStr "app/cache"])
      true (VerifyBool true) w = (w', Return (mjoin bundles))
    ∧ ∀ k, environ w' !! k = environ_with rt (mjoin bundles) (environ w) k.
Proof.
  apply (read_path_environ_writes_union (sample_runtime false)
           handler_from_env (VList [VStr "app/db"; VStr "app/cache"])
           [VStr "app/db"; VStr "app/cache"]
           [[("DB_USER", VStr "a"); ("DB_PASS", VStr "b")];
            [("CACHE_HOST", VStr "h")]] (VerifyBool true) (Some "tok")).
  - split; vm_compute; eauto.
  - reflexivity.
  - reflexivity.
  - reflexivity.
  - repeat constructor.
  - apply (bool_decide_unpack _). vm_compute. exact I.
  - repeat constructor; by eexists.
Defined.

(** X24. [_set_environments] cannot be repeated: after a call that
    returned, a second call with the same configuration, when its first
    key has no [VAULT_PATH_] prefix, raises the DUPLICATED exception for
    that key at once and writes nothing. *)
Theorem set_environments_twice rt self key value rest w w' :
  String.prefix "VAULT_PATH_" key = false ->
  _set_environments rt self ((key, value) :: rest) w = (w', Return tt) ->
  _set_environments rt self ((key, value) :: rest) w'
  = (mkWorld (environ w')
       (EvPrintDuplicated key (env_string rt value) value :: trace w'),
     Raise (Exception (MsgDuplicated key))).
Proof.
  intros Hp Hrun.
  pose proof (set_environments_success _ _ _ _ _ Hrun key value) as Hset.
  unfold _set_environments. simpl.
  erewrite bind_Raise; [done|].
  apply set_environment_entry_duplicate; [done|]. apply Hset. left.
Qed.

Lemma set_environments_twice_witness :
  let rt := sample_runtime false in
  let env := [("A", VStr "1"); ("DEBUG", VBool true)] in
  let w' := (_set_environments rt handler_from_env env
               world_with_credentials).1 in
  _set_environments rt handler_from_env (("A", VStr "1")
                                          :: [("DEBUG", VBool true)]) w'
  = (mkWorld (environ w')
       (EvPrintDuplicated "A" (env_string rt (VStr "1")) (VStr "1")
        :: trace w'),
     Raise (Exception (MsgDuplicated "A"))).
Proof.
  apply (set_environments_twice (sample_runtime false) handler_from_env
           "A" (VStr "1") [("DEBUG", VBool true)] world_with_credentials).
  - reflexivity.
  - vm_compute. reflexivity.
Defined.
